(** * CatalogScanner: a shallow embedding of [scanner.py]

    The scanner turns a screen recording of a scrolling in-game catalog
    into the sorted list of item names it shows:

      read_frames -> parse_frame -> parse_video -> run_tesseract
                  -> match_items -> scan_catalog

    Every function of [scanner.py] is embedded below under its own name.
    The libraries it calls (numpy, OpenCV, pytesseract, difflib, the
    builtins on [str], [set] and [sorted]) are modelled in the modules
    [Py], [PyStr], [Numpy] and [Difflib]; what cannot be computed from the inputs
    (colour conversion, optical character recognition, the similarity
    score) is a field of the class [Libraries]. *)

From Stdlib Require Import ZArith QArith String Ascii.
From stdpp Require Import gmap strings list sorting.
From Equations Require Import Equations.

Local Open Scope Z_scope.
Set Warnings "-clear-no-such-hyp".


(** ** Exceptions

    A Python call either returns or raises.  Only the exceptions that
    [scanner.py] can meet are listed. *)

Inductive exn : Type :=
  | IndexError      (* numpy: index out of bounds *)
  | CvError         (* cv2.error: cvtColor / vconcat *)
  | TesseractError. (* pytesseract *)

Inductive result (A : Type) : Type :=
  | Ok (a : A)
  | Raise (e : exn).
Arguments Ok {A} a.
Arguments Raise {A} e.

#[global] Instance result_ret : MRet result := @Ok.
#[global] Instance result_bind : MBind result := λ A B f m,
  match m with
  | Ok a => f a
  | Raise e => Raise e
  end.

#[global] Instance exn_eq_dec : EqDecision exn.
Proof. solve_decision. Defined.

(** ** Python builtins on sequences *)

Module Py.

(** [PySlice_AdjustIndices]: a negative bound counts from the end, and
    both bounds are clamped to [0, len]. *)
Definition adjust_index (len : nat) (i : Z) : nat :=
  Z.to_nat (if i <? 0 then Z.max 0 (i + Z.of_nat len)
            else Z.min i (Z.of_nat len)).

(** [l[start:stop]] *)
Definition slice {A} (start stop : Z) (l : list A) : list A :=
  let lo := adjust_index (length l) start in
  let hi := adjust_index (length l) stop in
  take (hi - lo)%nat (drop lo l).

(** [len(range(n)[start:stop])], the size of a sliced axis. *)
Definition slice_len (start stop : Z) (n : nat) : nat :=
  (adjust_index n stop - adjust_index n start)%nat.

(** [zip(l, l[1:])] *)
Definition pairwise {A} (l : list A) : list (A * A) := zip l (tail l).

End Py.

(** ** numpy: two-dimensional [uint8] arrays

    An array of shape [(h, w)] is the list of its [h] rows together with
    [w]: the width is kept apart because an array may have no rows and
    still have columns. *)

Module Numpy.

Record ndarray : Type := NdArray {
  ncols : nat;
  rows : list (list Z)
}.

#[global] Instance ndarray_eq_dec : EqDecision ndarray.
Proof. solve_decision. Defined.

Definition nrows (a : ndarray) : nat := length (rows a).

(** [a[r0:r1, c0:c1]] *)
Definition slice2 (r0 r1 c0 c1 : Z) (a : ndarray) : ndarray :=
  {| ncols := Py.slice_len c0 c1 (ncols a);
     rows := Py.slice c0 c1 <$> Py.slice r0 r1 (rows a) |}.

(** [a[r0:r1, :]] *)
Definition slice_rows (r0 r1 : Z) (a : ndarray) : ndarray :=
  {| ncols := ncols a; rows := Py.slice r0 r1 (rows a) |}.

(** [a[:, 0]]: raises [IndexError] on an array without columns. *)
Definition column0 (a : ndarray) : result (list Z) :=
  if decide (ncols a = 0%nat) then Raise IndexError
  else Ok ((λ r, default 0 (r !! 0%nat)) <$> rows a).

(** [v < c], elementwise *)
Definition less (v : list Z) (c : Z) : list bool :=
  (λ p, bool_decide (p < c)) <$> v.

(** [mask.nonzero()[0]]: the indices of the true entries, ascending. *)
Fixpoint nonzero_from (i : Z) (mask : list bool) : list Z :=
  match mask with
  | [] => []
  | b :: mask' =>
      if b then i :: nonzero_from (i + 1) mask'
      else nonzero_from (i + 1) mask'
  end.
Definition nonzero (mask : list bool) : list Z := nonzero_from 0 mask.

(** [cv2.vconcat(imgs)]: stacks images of one width; an empty list or
    a width mismatch is rejected. *)
Definition vconcat (imgs : list ndarray) : result ndarray :=
  match imgs with
  | [] => Raise CvError
  | img :: _ =>
      if forallb (λ a, bool_decide (ncols a = ncols img)) imgs
      then Ok {| ncols := ncols img; rows := mjoin (rows <$> imgs) |}
      else Raise CvError
  end.

End Numpy.
Import Numpy.

(** ** Row Segmenter: [parse_frame] *)

(** The test of line 33, [40 < y2 - y1 < 60]. *)
Definition in_band (y1 y2 : Z) : bool := (40 <? y2 - y1) && (y2 - y1 <? 60).

(** The body of the [for] loop over [zip(lines, lines[1:])]; the
    generator's yields are collected in order. *)
Fixpoint parse_frame_rows (frame : ndarray) (pairs : list (Z * Z))
  : list ndarray :=
  match pairs with
  | [] => []
  | (y1, y2) :: pairs' =>
      if negb (in_band y1 y2) then parse_frame_rows frame pairs'
      else slice_rows (y1 + 5) (y2 - 5) frame :: parse_frame_rows frame pairs'
  end.

(** [lines = [0] + list((frame[:, 0] < 200).nonzero()[0])] *)
Definition separator_lines (col : list Z) : list Z :=
  0 :: nonzero (less col 200).

Definition parse_frame (frame : ndarray) : result (list ndarray) :=
  col ← column0 frame;
  let lines := separator_lines col in
  Ok (parse_frame_rows frame (Py.pairwise lines)).

(** ** Python [str]

    A string is a sequence of code points below 256 (Rocq's [string]);
    [isspace] and [lower] are Python's on that range. *)

Module PyStr.

Definition nl : ascii := ascii_of_nat 10.

Definition isspace (c : ascii) : bool :=
  let n := N_of_ascii c in
  ((9 <=? n) && (n <=? 13) || (28 <=? n) && (n <=? 32)
   || (n =? 133) || (n =? 160))%N.

Definition lower_char (c : ascii) : ascii :=
  let n := N_of_ascii c in
  if ((65 <=? n) && (n <=? 90)
      || (192 <=? n) && (n <=? 222) && negb (n =? 215))%N
  then ascii_of_N (n + 32) else c.

(** [s.lower()] *)
Fixpoint lower (s : string) : string :=
  match s with
  | EmptyString => EmptyString
  | String c s' => String (lower_char c) (lower s')
  end.

Fixpoint lstrip (s : string) : string :=
  match s with
  | EmptyString => EmptyString
  | String c s' => if isspace c then lstrip s' else s
  end.

Fixpoint rstrip (s : string) : string :=
  match s with
  | EmptyString => EmptyString
  | String c s' =>
      match rstrip s' with
      | EmptyString => if isspace c then EmptyString else String c EmptyString
      | r => String c r
      end
  end.

(** [s.strip()] *)
Definition strip (s : string) : string := rstrip (lstrip s).

(** [s.split(sep)] for a one-character separator: never empty. *)
Fixpoint split (sep : ascii) (s : string) : list string :=
  match s with
  | EmptyString => [EmptyString]
  | String c s' =>
      if decide (c = sep) then EmptyString :: split sep s'
      else match split sep s' with
           | [] => [String c EmptyString]
           | t :: ts => String c t :: ts
           end
  end.

(** [s1 <= s2], by code points *)
Definition le (s1 s2 : string) : Prop := String.leb s1 s2 = true.
Definition lt (s1 s2 : string) : Prop := String.ltb s1 s2 = true.

#[global] Instance le_dec : RelDecision le.
Proof. intros s1 s2. unfold le. apply _. Defined.

(** [sorted(l)] on strings: a stable merge sort. *)
Definition sorted (l : list string) : list string := merge_sort le l.

End PyStr.

(** ** What the scanner takes from its libraries

    - [cvtColor] is [cv2.cvtColor(frame, cv2.COLOR_BGR2GRAY)] on a decoded
      colour frame;
    - [image_to_string] is [pytesseract.image_to_string] on the image
      built from an array;
    - [ratio a b] is [difflib.SequenceMatcher(None, a, b).ratio()], that is
      [2.0 * matches / (len(a) + len(b))].  The quotient of two integers
      below [2^26] and the constant [0.8] compare as doubles the way they
      compare as rationals, so the score is kept as a rational. *)

Class Libraries : Type := {
  color_frame : Type;
  cvtColor : color_frame → result ndarray;
  image_to_string : ndarray → result string;
  ratio : string → string → Q;
}.

(** ** difflib *)

Module Difflib.
Section difflib.
Context {libs : Libraries}.

(** [p > q] on [(score, word)] tuples: the first components decide
    unless they are equal. *)
Definition tuple_gt (p q : Q * string) : bool :=
  match (p.1 ?= q.1)%Q with
  | Gt => true
  | Lt => false
  | Eq => String.ltb q.2 p.2
  end.

(** [max(it, default=sentinel)]: the first maximal element. *)
Definition max_tuple (l : list (Q * string)) : option (Q * string) :=
  match l with
  | [] => None
  | p :: l' =>
      Some (foldl (λ best item, if tuple_gt item best then item else best)
                  p l')
  end.

(** [heapq.nlargest(1, result)] takes the short-cut through [max]. *)
Definition nlargest1 (l : list (Q * string)) : list (Q * string) :=
  match max_tuple l with
  | None => []
  | Some p => [p]
  end.

(** The loop of [get_close_matches] over the possibilities.  The two
    quick ratios it tests first are upper bounds of [ratio], so a word
    is kept exactly when [ratio] reaches the cutoff. *)
Fixpoint scored (word : string) (possibilities : list string) (cutoff : Q)
  : list (Q * string) :=
  match possibilities with
  | [] => []
  | x :: possibilities' =>
      if Qle_bool cutoff (ratio x word)
      then (ratio x word, x) :: scored word possibilities' cutoff
      else scored word possibilities' cutoff
  end.

(** [get_close_matches(word, possibilities, n=1, cutoff)] *)
Definition get_close_matches (word : string) (possibilities : list string)
    (cutoff : Q) : list string :=
  snd <$> nlargest1 (scored word possibilities cutoff).

End difflib.
End Difflib.

(** ** The scanner *)

Section scanner.
Context {libs : Libraries}.

(** *** Frame Source: [read_frames]

    [cv2.VideoCapture]: the frames still to decode and whether the
    handle is open. *)
Record VideoCapture : Type := {
  stream : list color_frame;
  opened : bool
}.

Definition VideoCapture_open (video : list color_frame) : VideoCapture :=
  {| stream := video; opened := true |}.

(** [ret, frame = cap.read()] *)
Definition cap_read (cap : VideoCapture)
  : option color_frame * VideoCapture :=
  match stream cap with
  | [] => (None, cap)
  | frame :: rest => (Some frame, {| stream := rest; opened := opened cap |})
  end.

(** [cap.release()] *)
Definition cap_release (cap : VideoCapture) : VideoCapture :=
  {| stream := []; opened := false |}.

(** The generator object: its local [cap], and whether its body can
    still be resumed. *)
Record frames_gen : Type := {
  cap : VideoCapture;
  running : bool
}.

Inductive gen_step : Type :=
  | Yield (frame : ndarray)
  | StopIteration
  | Throw (e : exn).

Definition read_frames (video : list color_frame) : frames_gen :=
  {| cap := VideoCapture_open video; running := true |}.

(** [next(gen)]: run the body up to the next [yield], the [break]
    followed by [cap.release()], or an exception. *)
Definition read_frames_next (gen : frames_gen) : gen_step * frames_gen :=
  if negb (running gen) then (StopIteration, gen)
  else
    match cap_read (cap gen) with
    | (None, cap') =>
        (StopIteration, {| cap := cap_release cap'; running := false |})
    | (Some frame, cap') =>
        match cvtColor frame with
        | Raise e => (Throw e, {| cap := cap'; running := false |})
        | Ok gray =>
            (Yield (slice2 150 630 635 1050 gray),
             {| cap := cap'; running := true |})
        end
    end.

(** [gen.close()]: [GeneratorExit] is raised at the [yield]; nothing
    catches it, so the body ends there. *)
Definition read_frames_close (gen : frames_gen) : frames_gen :=
  {| cap := cap gen; running := false |}.

(** A value together with the equation that says where it came from,
    for the termination argument of the loop below. *)
Definition inspect {A : Type} (a : A) : {b : A | a = b} := exist _ a eq_refl.

(** *** Frame Sampler: [parse_video]

    The [for] loop over [enumerate(read_frames(filename))], with the
    state of the generator after the loop. *)
Equations? parse_video_loop (gen : frames_gen) (i : nat)
    (all_rows : list ndarray)
  : result (list ndarray) * frames_gen
  by wf (length (stream (cap gen))) lt :=
  parse_video_loop gen i all_rows with inspect (read_frames_next gen) := {
    | exist _ (StopIteration, gen') _ => (Ok all_rows, gen')
    | exist _ (Throw e, gen') _ => (Raise e, gen')
    | exist _ (Yield frame, gen') Hnext with bool_decide (i mod 3 ≠ 0)%nat := {
        | true => parse_video_loop gen' (S i) all_rows
        | false with parse_frame frame := {
            | Raise e => (Raise e, gen')
            | Ok rows => parse_video_loop gen' (S i) (all_rows ++ rows)
          }
      }
  }.
Proof.
  all: unfold read_frames_next, cap_read in Hnext.
  all: destruct (running gen), (stream (cap gen)) as [|fr rest]; simpl in *;
    try discriminate.
  all: destruct (cvtColor fr); inversion Hnext; subst; simpl; lia.
Defined.

Definition parse_video_run (video : list color_frame)
  : result (list ndarray) * frames_gen :=
  parse_video_loop (read_frames video) 0 [].

Definition parse_video (video : list color_frame) : result (list ndarray) :=
  (parse_video_run video).1.

(** *** Text Extractor: [run_tesseract] *)

(** The set comprehension of line 56,
    [{t.strip().lower() for t in parsed_text.split('\n') if t}]. *)
Definition cleanup (parsed_text : string) : gset string :=
  list_to_set
    ((λ t, PyStr.lower (PyStr.strip t))
       <$> filter (λ t, t ≠ EmptyString) (PyStr.split PyStr.nl parsed_text)).

Definition run_tesseract (item_rows : list ndarray) : result (gset string) :=
  concat_rows ← vconcat item_rows;
  parsed_text ← image_to_string concat_rows;
  Ok (cleanup parsed_text).

(** *** Matcher: [match_items] *)

Inductive log_record : Type :=
  | Warning (item : string)          (* 'No match found for %r' *)
  | Info (item matched : string).    (* 'Matched %r to %r' *)

Definition cutoff : Q := 8 # 10.

(** One turn of the loop over [parsed_names], on the set built so far
    and the records logged so far.  A Python set is enumerated in an
    order of its own; [get_close_matches] is given the enumeration
    [elements item_db]. *)
Definition match_items_step (item_db : gset string)
    (st : gset string * list log_record) (item : string)
  : gset string * list log_record :=
  let '(matched_items, log) := st in
  if decide (item ∈ item_db) then (matched_items ∪ {[ item ]}, log)
  else
    match Difflib.get_close_matches item (elements item_db) cutoff with
    | [] => (matched_items, log ++ [Warning item])
    | m :: _ => (matched_items ∪ {[ m ]}, log ++ [Info item m])
    end.

Definition match_items_log (parsed_names : list string)
    (item_db : gset string) : gset string * list log_record :=
  foldl (match_items_step item_db) (∅, []) parsed_names.

Definition match_items (parsed_names : list string) (item_db : gset string)
  : gset string :=
  (match_items_log parsed_names item_db).1.

(** *** Catalog Scanner: [scan_catalog]

    [video_file] stands for the frames the file decodes to and
    [items_json] for the array of strings that
    [json.load(open('items/items_en-US.json'))] returns. *)
Definition scan_catalog (video_file : list color_frame)
    (items_json : list string) : result (list string) :=
  item_rows ← parse_video video_file;
  item_names ← run_tesseract item_rows;
  let item_db : gset string := list_to_set items_json in
  let clean_names := match_items (elements item_names) item_db in
  Ok (PyStr.sorted (elements clean_names)).

End scanner.

(** ** An executable instance of the libraries

    [SequenceMatcher] follows difflib's matcher (no junk function, the
    automatic junk heuristic on): it is the similarity the scanner runs
    with.  The results below hold for every instance of [Libraries];
    this one is used to run the scanner on concrete inputs. *)

Module SequenceMatcher.

Local Open Scope nat_scope.

(** [__chain_b]: in a second sequence of 200 elements or more, an
    element that fills more than 1% of it (plus one) is dropped from
    the index [b2j]. *)
Definition popular (b : list ascii) (c : ascii) : bool :=
  (200 <=? length b) && (length b / 100 + 1 <? count_occ ascii_dec b c).

(** One turn of the outer loop of [find_longest_match]: from [j2len],
    the lengths of the matches that end at [a[i-1]], to those that end
    at [a[i]], as a dense row over the positions of [b]. *)
Definition next_row (b : list ascii) (blo bhi : nat) (ai : ascii)
    (j2len : list nat) : list nat :=
  imap (λ j bj,
          if (blo <=? j) && (j <? bhi) && bool_decide (ai = bj)
             && negb (popular b bj)
          then S (match j with 0 => 0 | S j' => nth j' j2len 0 end)
          else 0) b.

(** [if k > bestsize: besti, bestj, bestsize = i-k+1, j-k+1, k], for
    [j] ascending. *)
Definition update_best (i : nat) (row : list nat) (best : nat * nat * nat)
  : nat * nat * nat :=
  foldl (λ best jk,
           let '(j, k) := jk in
           let '(_, _, bestsize) := best in
           if bestsize <? k then (S i - k, S j - k, k) else best)
        best (imap pair row).

Fixpoint longest_from (a b : list ascii) (blo bhi : nat) (i : nat)
    (ais : list ascii) (j2len : list nat) (best : nat * nat * nat)
  : nat * nat * nat :=
  match ais with
  | [] => best
  | ai :: ais' =>
      let row := next_row b blo bhi ai j2len in
      longest_from a b blo bhi (S i) ais' row (update_best i row best)
  end.

(** The two loops that extend the block over equal elements. *)
Fixpoint extend_left (a b : list ascii) (alo blo : nat) (fuel : nat)
    (best : nat * nat * nat) : nat * nat * nat :=
  let '(besti, bestj, bestsize) := best in
  match fuel with
  | 0 => best
  | S fuel' =>
      if (alo <? besti) && (blo <? bestj)
         && bool_decide (a !! (besti - 1) = b !! (bestj - 1))
      then extend_left a b alo blo fuel' (besti - 1, bestj - 1, S bestsize)
      else best
  end.

Fixpoint extend_right (a b : list ascii) (ahi bhi : nat) (fuel : nat)
    (best : nat * nat * nat) : nat * nat * nat :=
  let '(besti, bestj, bestsize) := best in
  match fuel with
  | 0 => best
  | S fuel' =>
      if (besti + bestsize <? ahi) && (bestj + bestsize <? bhi)
         && bool_decide (a !! (besti + bestsize) = b !! (bestj + bestsize))
      then extend_right a b ahi bhi fuel' (besti, bestj, S bestsize)
      else best
  end.

Definition find_longest_match (a b : list ascii) (alo ahi blo bhi : nat)
  : nat * nat * nat :=
  let best :=
    longest_from a b blo bhi alo (take (ahi - alo) (drop alo a))
                 (replicate (length b) 0) (alo, blo, 0) in
  extend_right a b ahi bhi (length a)
    (extend_left a b alo blo (length a) best).

(** The number of matched elements: the sum of the sizes of
    [get_matching_blocks].  Each call works on a strictly shorter
    stretch of [a], so [length a + 1] levels are enough. *)
Fixpoint matches (fuel : nat) (a b : list ascii) (alo ahi blo bhi : nat)
  : nat :=
  match fuel with
  | 0 => 0
  | S fuel' =>
      let '(i, j, k) := find_longest_match a b alo ahi blo bhi in
      if k =? 0 then 0
      else k
           + (if (alo <? i) && (blo <? j)
              then matches fuel' a b alo i blo j else 0)
           + (if (i + k <? ahi) && (j + k <? bhi)
              then matches fuel' a b (i + k) ahi (j + k) bhi else 0)
  end.

(** [_calculate_ratio(matches, len(a) + len(b))] *)
Definition ratio (sa sb : string) : Q :=
  let a := list_ascii_of_string sa in
  let b := list_ascii_of_string sb in
  let length := length a + length b in
  if length =? 0 then 1%Q
  else (2 * Z.of_nat (matches (S (List.length a)) a b 0 (List.length a)
                              0 (List.length b))
        # Pos.of_nat length)%Q.

End SequenceMatcher.

(** Frames that are decoded straight to grayscale, an optical character
    recognition that answers [text] whatever the image, and difflib's
    ratio. *)
Definition stub_libraries (text : string) : Libraries :=
  {| color_frame := ndarray;
     cvtColor := Ok;
     image_to_string := λ _, Ok text;
     ratio := SequenceMatcher.ratio |}.

(** ** Vocabulary of the specification *)

(** Row [k] of the leftmost column is a line pixel: darker than 200. *)
Definition line_pixel (col : list Z) (k : Z) : Prop :=
  0 ≤ k ∧ ∃ p, col !! Z.to_nat k = Some p ∧ p < 200.

(** The consecutive pairs of a list of boundaries, by position. *)
Definition boundary_pairs (lines : list Z) : list (Z * Z) :=
  (λ i, (lines !!! i, lines !!! S i)) <$> seq 0 (length lines - 1).

(** The gap of a pair lies strictly between 40 and 60. *)
Definition band (p : Z * Z) : Prop := 40 < p.2 - p.1 < 60.

#[global] Instance band_dec p : Decision (band p).
Proof. unfold band. apply _. Defined.

(** [r] is [frame] cropped to the rows [lo, hi), across its full width:
    row [j] of [r] is row [lo + j] of [frame]. *)
Definition is_crop (frame : ndarray) (lo hi : Z) (r : ndarray) : Prop :=
  ncols r = ncols frame ∧
  Z.of_nat (nrows r) = hi - lo ∧
  ∀ j : nat, (j < nrows r)%nat →
    rows r !! j = rows frame !! (Z.to_nat lo + j)%nat.

(** A column with a single dark pixel, at row [k] of [h]. *)
Definition one_line_column (h k : nat) : list Z :=
  replicate k 255 ++ [0] ++ replicate (h - k - 1) 255.

(** A frame of one column. *)
Definition column_frame (col : list Z) : ndarray :=
  {| ncols := 1; rows := (λ p, [p]) <$> col |}.

(** The elements of [l] at the positions [i] with [start + i] a
    multiple of 3. *)
Definition sampled_from {A} (start : nat) (l : list A) : list A :=
  snd <$> filter (λ p, (p.1 mod 3 = 0)%nat)
                 (imap (λ i x, ((start + i)%nat, x)) l).

(** The frames whose 0-based decode index is a multiple of 3. *)
Definition sampled {A} (l : list A) : list A := sampled_from 0 l.

(** A 320 x 240 recording has no pixel in the columns 635 to 1050. *)
Definition qvga_frame : ndarray :=
  {| ncols := 320; rows := replicate 240 (replicate 320 255) |}.

(** A frame of 201 rows and 636 columns, white but for one dark pixel in
    the region of interest: at its row 50, in its leftmost column. *)
Definition sample_frame : ndarray :=
  {| ncols := 636;
     rows := replicate 200 (replicate 636 255)
             ++ [replicate 635 255 ++ [0]] |}.

(** ** Sample inputs *)

Definition newline : string := String PyStr.nl EmptyString.

Definition sample_vocabulary : list string :=
  ["iron sword"; "cracked shield"; "steel shield"]%string.

(** Two recognised lines and an empty one between them. *)
Definition sample_text : string :=
  ("Iron Sword" +:+ newline +:+ newline +:+ "Cracked Shield" +:+ newline)%string.

(** A recognised line followed by a line of one space. *)
Definition blank_line_text : string :=
  ("Iron Sword" +:+ newline +:+ " " +:+ newline)%string.

(** ** Command line: [main] *)

(** [sep.join(l)] *)
Fixpoint join (sep : string) (l : list string) : string :=
  match l with
  | [] => EmptyString
  | s :: l' =>
      match l' with
      | [] => s
      | _ :: _ => (s +:+ sep +:+ join sep l')%string
      end
  end.

Section command_line.
Context {libs : Libraries}.

(** [main(argv)].  [files] gives the frames that each path decodes to
    and [items_json] the content of the vocabulary file; the value is
    the text that [print] writes to the standard output. *)
Definition main (files : string → list color_frame)
    (items_json : list string) (argv : list string) : result string :=
  let video_file :=
    if bool_decide (1 < length argv)%nat then argv !!! 1%nat
    else "catalog3.mp4"%string in
  all_items ← scan_catalog (files video_file) items_json;
  Ok (join newline all_items +:+ newline)%string.

End command_line.

(** ** Further vocabulary *)

(** The string holds a line break. *)
Definition has_newline (s : string) : Prop :=
  PyStr.nl ∈ list_ascii_of_string s.


(** The candidate a log record is about. *)
Definition log_item (r : log_record) : string :=
  match r with
  | Warning item => item
  | Info item _ => item
  end.

(** The summed height of a batch of images. *)
Definition total_rows (imgs : list ndarray) : nat := sum_list (nrows <$> imgs).

(** A frame of 630 rows and 1050 columns, all white. *)
Definition full_frame : ndarray :=
  {| ncols := 1050; rows := replicate 630 (replicate 1050 255) |}.

Section log_vocabulary.
Context {libs : Libraries}.

(** What a log record claims about its candidate: a warning, that no
    entry of the vocabulary scores 0.8 or more; a match, that the entry
    reaches 0.8 and that every other entry reaching it scores less, or
    the same and is not greater as a string. *)
Definition record_justified (item_db : gset string) (r : log_record) : Prop :=
  match r with
  | Warning c =>
      (c ∉ item_db) ∧ ∀ x, x ∈ item_db → (ratio x c < 8 # 10)%Q
  | Info c m =>
      (c ∉ item_db) ∧ m ∈ item_db ∧ (8 # 10 <= ratio m c)%Q ∧
      ∀ x, x ∈ item_db → (8 # 10 <= ratio x c)%Q →
        (ratio x c < ratio m c)%Q ∨
        (Qeq (ratio x c) (ratio m c) ∧ PyStr.le x m)
  end.

End log_vocabulary.

(** * Properties *)

(** ** Slices and index lists *)

Lemma adjust_index_inside (len : nat) (i : Z) :
  0 ≤ i ≤ Z.of_nat len → Py.adjust_index len i = Z.to_nat i.
Proof.
  intros [Hlo Hhi]. unfold Py.adjust_index.
  destruct (Z.ltb_spec i 0); [lia|]. f_equal. lia.
Qed.

Lemma slice_inside {A} (lo hi : Z) (l : list A) :
  0 ≤ lo ≤ hi → hi ≤ Z.of_nat (length l) →
  Py.slice lo hi l = take (Z.to_nat (hi - lo)) (drop (Z.to_nat lo) l).
Proof.
  intros Hlo Hhi. unfold Py.slice.
  rewrite !adjust_index_inside by lia. f_equal. lia.
Qed.

Lemma slice_inside_length {A} (lo hi : Z) (l : list A) :
  0 ≤ lo ≤ hi → hi ≤ Z.of_nat (length l) →
  Z.of_nat (length (Py.slice lo hi l)) = hi - lo.
Proof.
  intros Hlo Hhi. rewrite slice_inside by done.
  rewrite length_take, length_drop. lia.
Qed.

Lemma slice_inside_lookup {A} (lo hi : Z) (l : list A) (j : nat) :
  0 ≤ lo ≤ hi → hi ≤ Z.of_nat (length l) →
  (j < length (Py.slice lo hi l))%nat →
  Py.slice lo hi l !! j = l !! (Z.to_nat lo + j)%nat.
Proof.
  intros Hlo Hhi Hj.
  pose proof (slice_inside_length lo hi l Hlo Hhi) as Hlen.
  rewrite slice_inside by done.
  rewrite lookup_take_lt by lia. by rewrite lookup_drop.
Qed.

Lemma elem_of_nonzero_from (i : Z) (mask : list bool) (k : Z) :
  k ∈ nonzero_from i mask ↔ i ≤ k ∧ mask !! Z.to_nat (k - i) = Some true.
Proof.
  revert i. induction mask as [|b mask IH]; intros i; simpl.
  - split; [by intros ?%elem_of_nil|]. intros [_ Hk]. by rewrite lookup_nil in Hk.
  - assert (Hstep : k ∈ nonzero_from (i + 1) mask ↔
              i < k ∧ (b :: mask) !! Z.to_nat (k - i) = Some true).
    { rewrite IH. split.
      - intros [Hle Hk]. split; [lia|].
        replace (Z.to_nat (k - i)) with (S (Z.to_nat (k - (i + 1)))) by lia.
        done.
      - intros [Hlt Hk]. split; [lia|].
        replace (Z.to_nat (k - i)) with (S (Z.to_nat (k - (i + 1)))) in Hk
          by lia.
        done. }
    destruct b.
    + rewrite elem_of_cons, Hstep. split.
      * intros [->|[Hlt Hk]]; [|split; [lia|done]].
        split; [lia|]. by rewrite Z.sub_diag.
      * intros [Hle Hk]. destruct (decide (k = i)) as [->|]; [by left|].
        right. split; [lia|done].
    + rewrite Hstep. split.
      * intros [Hlt Hk]. split; [lia|done].
      * intros [Hle Hk]. destruct (decide (k = i)) as [->|].
        -- by rewrite Z.sub_diag in Hk.
        -- split; [lia|done].
Qed.

Lemma nonzero_from_sorted (i : Z) (mask : list bool) :
  StronglySorted Z.lt (nonzero_from i mask).
Proof.
  revert i. induction mask as [|b mask IH]; intros i; simpl.
  - constructor.
  - destruct b; [|apply IH]. constructor; [apply IH|].
    apply Forall_forall. intros k Hk.
    apply elem_of_nonzero_from in Hk. lia.
Qed.

Lemma elem_of_nonzero_less (col : list Z) (k : Z) :
  k ∈ nonzero (less col 200) ↔ line_pixel col k.
Proof.
  unfold nonzero, less, line_pixel. rewrite elem_of_nonzero_from.
  rewrite Z.sub_0_r, list_lookup_fmap. split.
  - intros [Hk Hm]. split; [done|].
    destruct (col !! Z.to_nat k) as [p|] eqn:Hp; [|done].
    exists p. split; [done|]. simpl in Hm.
    injection Hm as Hm. by apply bool_decide_eq_true in Hm.
  - intros [Hk (p & Hp & Hlt)]. split; [done|].
    rewrite Hp. simpl. f_equal. by apply bool_decide_eq_true.
Qed.

Lemma pairwise_boundary_pairs (l : list Z) : Py.pairwise l = boundary_pairs l.
Proof.
  unfold Py.pairwise, boundary_pairs. apply list_eq. intros i.
  rewrite list_lookup_fmap.
  destruct (decide (S i < length l)%nat) as [Hi|Hi].
  - rewrite lookup_seq_lt by lia. simpl.
    destruct (lookup_lt_is_Some_2 l i) as [x Hx]; [lia|].
    destruct (lookup_lt_is_Some_2 l (S i)) as [y Hy]; [lia|].
    rewrite (list_lookup_total_correct _ _ _ Hx).
    rewrite (list_lookup_total_correct _ _ _ Hy).
    apply lookup_zip_with_Some. exists x, y.
    split; [done|]. split; [done|]. by rewrite lookup_tail.
  - rewrite lookup_seq_ge by lia. simpl.
    apply lookup_ge_None. rewrite length_zip_with.
    destruct l as [|x l]; cbn [tail length] in *; lia.
Qed.

Lemma in_band_band (y1 y2 : Z) : in_band y1 y2 = bool_decide (band (y1, y2)).
Proof.
  unfold in_band, band. simpl.
  destruct (Z.ltb_spec 40 (y2 - y1)), (Z.ltb_spec (y2 - y1) 60); simpl;
    symmetry; (apply bool_decide_eq_true + apply bool_decide_eq_false); lia.
Qed.

Lemma parse_frame_rows_filter (frame : ndarray) (pairs : list (Z * Z)) :
  parse_frame_rows frame pairs
  = (λ p, slice_rows (p.1 + 5) (p.2 - 5) frame) <$> filter band pairs.
Proof.
  induction pairs as [|[y1 y2] pairs IH]; [done|].
  simpl. rewrite in_band_band, filter_cons.
  destruct (decide (band (y1, y2))) as [Hb|Hb].
  - rewrite bool_decide_eq_true_2 by done. simpl. by rewrite IH.
  - rewrite bool_decide_eq_false_2 by done. simpl. by rewrite IH.
Qed.

Lemma column0_length (frame : ndarray) (col : list Z) :
  column0 frame = Ok col → length col = nrows frame.
Proof.
  unfold column0. destruct (decide _); [done|].
  intros [= <-]. by rewrite length_fmap.
Qed.

Lemma line_pixel_bound (col : list Z) (k : Z) :
  line_pixel col k → 0 ≤ k < Z.of_nat (length col).
Proof.
  intros [Hk (p & Hp & _)]. apply lookup_lt_Some in Hp. lia.
Qed.

Lemma slice_rows_is_crop (frame : ndarray) (y1 y2 : Z) :
  0 ≤ y1 → y2 < Z.of_nat (nrows frame) → band (y1, y2) →
  is_crop frame (y1 + 5) (y2 - 5) (slice_rows (y1 + 5) (y2 - 5) frame).
Proof.
  unfold band, is_crop, nrows. simpl. intros Hy1 Hy2 Hb.
  split; [done|]. split.
  - apply slice_inside_length; lia.
  - intros j Hj. apply slice_inside_lookup; [lia|lia|done].
Qed.

(** ** Row Segmenter *)

(** C5: on a frame that has a leftmost column, the boundaries are 0
    followed by the line-pixel rows in ascending order, and the rows
    yielded are, in order, one per consecutive pair of boundaries whose
    gap lies strictly between 40 and 60: the frame cropped to
    [y1+5, y2-5) across its full width.  A pair with a gap of at most 40
    or at least 60 yields nothing. *)
Theorem parse_frame_band (frame : ndarray) (col : list Z) :
  column0 frame = Ok col →
  ∃ ks out,
    StronglySorted Z.lt ks ∧
    (∀ k, k ∈ ks ↔ line_pixel col k) ∧
    parse_frame frame = Ok out ∧
    Forall2 (λ p r, is_crop frame (p.1 + 5) (p.2 - 5) r)
            (filter band (boundary_pairs (0 :: ks))) out.
Proof.
  intros Hcol. exists (nonzero (less col 200)).
  eexists. split; [apply nonzero_from_sorted|].
  split; [apply elem_of_nonzero_less|].
  unfold parse_frame. rewrite Hcol. simpl. split; [reflexivity|].
  unfold separator_lines.
  rewrite parse_frame_rows_filter, pairwise_boundary_pairs.
  apply Forall2_fmap_r, Forall_Forall2_diag, Forall_forall.
  intros [y1 y2] Hp. apply list_elem_of_filter in Hp as [Hb Hp].
  rewrite <- pairwise_boundary_pairs in Hp. unfold Py.pairwise in Hp.
  pose proof (elem_of_zip_l _ _ _ _ Hp) as H1.
  pose proof (elem_of_zip_r _ _ _ _ Hp) as H2. simpl in H1, H2.
  apply elem_of_nonzero_less, line_pixel_bound in H2.
  rewrite (column0_length _ _ Hcol) in H2.
  simpl. apply slice_rows_is_crop; [|lia|done].
  apply elem_of_cons in H1 as [->|H1]; [done|].
  apply elem_of_nonzero_less, line_pixel_bound in H1. lia.
Qed.

Lemma parse_frame_band_witness :
  let col := one_line_column 51 50 in
  column0 (column_frame col) = Ok col ∧
  ∃ ks out,
    StronglySorted Z.lt ks ∧
    (∀ k, k ∈ ks ↔ line_pixel col k) ∧
    parse_frame (column_frame col) = Ok out ∧
    Forall2 (λ p r, is_crop (column_frame col) (p.1 + 5) (p.2 - 5) r)
            (filter band (boundary_pairs (0 :: ks))) out.
Proof.
  split; [reflexivity|].
  apply (parse_frame_band (column_frame (one_line_column 51 50))).
  reflexivity.
Defined.

Lemma sorted_singleton (ks : list Z) (k : Z) :
  StronglySorted Z.lt ks → (∀ x, x ∈ ks ↔ x = k) → ks = [k].
Proof.
  intros Hs Hk. destruct ks as [|k1 ks].
  - exfalso. apply (not_elem_of_nil k), Hk. done.
  - assert (k1 = k) as -> by (apply Hk; left).
    f_equal. destruct ks as [|k2 ks]; [done|]. exfalso.
    assert (k2 = k) as -> by (apply Hk; right; left).
    apply StronglySorted_inv in Hs as [_ Hlt].
    apply Forall_cons in Hlt as [Hlt _]. lia.
Qed.

(** The boundaries of a column with at most one line pixel. *)
Lemma separator_lines_at_most_one (col : list Z) :
  (∀ k k', line_pixel col k → line_pixel col k' → k = k') →
  separator_lines col = [0] ∨
  ∃ k, line_pixel col k ∧ separator_lines col = [0; k].
Proof.
  intros Hone. unfold separator_lines.
  destruct (nonzero (less col 200)) as [|k ks] eqn:Hks; [by left|].
  right. exists k.
  assert (Hk : line_pixel col k).
  { apply elem_of_nonzero_less. rewrite Hks. left. }
  split; [done|]. f_equal. rewrite <- Hks.
  apply sorted_singleton; [apply nonzero_from_sorted|].
  intros x. rewrite elem_of_nonzero_less. split.
  - intros Hx. by apply Hone.
  - by intros ->.
Qed.

(** C6, as amended: a frame whose leftmost column holds at most one line
    pixel, and none at a row strictly between 40 and 60, yields no row
    image. *)
Theorem parse_frame_at_most_one_line (frame : ndarray) (col : list Z) :
  column0 frame = Ok col →
  (∀ k k', line_pixel col k → line_pixel col k' → k = k') →
  (∀ k, line_pixel col k → k ≤ 40 ∨ 60 ≤ k) →
  parse_frame frame = Ok [].
Proof.
  intros Hcol Hone Hout. unfold parse_frame. rewrite Hcol. simpl.
  destruct (separator_lines_at_most_one col Hone) as [->|(k & Hk & ->)];
    [done|].
  simpl. rewrite in_band_band, bool_decide_eq_false_2; [done|].
  unfold band. simpl. specialize (Hout k Hk). lia.
Qed.

Lemma line_pixel_one_line_40 (k : Z) :
  line_pixel (one_line_column 51 40) k ↔ k = 40.
Proof.
  rewrite <- elem_of_nonzero_less.
  replace (nonzero (less (one_line_column 51 40) 200)) with [40]
    by (vm_compute; reflexivity).
  apply list_elem_of_singleton.
Qed.

Lemma parse_frame_at_most_one_line_witness :
  parse_frame (column_frame (one_line_column 51 40)) = Ok [].
Proof.
  apply (parse_frame_at_most_one_line _ (one_line_column 51 40)).
  - reflexivity.
  - intros k k' Hk Hk'. apply line_pixel_one_line_40 in Hk, Hk'. lia.
  - intros k Hk. apply line_pixel_one_line_40 in Hk. lia.
Defined.

(** C6, as stated, fails: a single line pixel at row 50 closes a row
    with the top edge, and that row is yielded. *)
Lemma parse_frame_one_line_yields :
  let col := one_line_column 51 50 in
  column0 (column_frame col) = Ok col ∧
  length (filter (λ p, p < 200) col) = 1%nat ∧
  parse_frame (column_frame col) ≠ Ok [].
Proof.
  split; [reflexivity|]. split; [by vm_compute|].
  vm_compute. discriminate.
Qed.

(** ** Frame Source and Frame Sampler *)

Section sampler.
Context {libs : Libraries}.

(** The loop, one turn at a time. *)
Lemma parse_video_loop_eq (gen : frames_gen) (i : nat)
    (all_rows : list ndarray) :
  parse_video_loop gen i all_rows =
  match read_frames_next gen with
  | (StopIteration, gen') => (Ok all_rows, gen')
  | (Throw e, gen') => (Raise e, gen')
  | (Yield frame, gen') =>
      if bool_decide (i mod 3 ≠ 0)%nat
      then parse_video_loop gen' (S i) all_rows
      else match parse_frame frame with
           | Raise e => (Raise e, gen')
           | Ok rows => parse_video_loop gen' (S i) (all_rows ++ rows)
           end
  end.
Proof.
  funelim (parse_video_loop gen i all_rows).
  all: match goal with E : read_frames_next _ = _ |- _ => rewrite E end.
  all: repeat match goal with
         | E : bool_decide _ = _ |- _ => rewrite E; clear E
         | E : parse_frame _ = _ |- _ => rewrite E; clear E
         end.
  all: done.
Qed.

Lemma read_frames_next_nil :
  read_frames_next (read_frames []) =
  (StopIteration,
   {| cap := {| stream := []; opened := false |}; running := false |}).
Proof. done. Qed.

Lemma read_frames_next_cons (frame : color_frame)
    (rest : list color_frame) :
  read_frames_next (read_frames (frame :: rest)) =
  match cvtColor frame with
  | Raise e =>
      (Throw e,
       {| cap := {| stream := rest; opened := true |}; running := false |})
  | Ok gray => (Yield (slice2 150 630 635 1050 gray), read_frames rest)
  end.
Proof.
  unfold read_frames_next, read_frames. simpl. by destruct (cvtColor frame).
Qed.

Lemma sampled_from_cons {A} (i : nat) (x : A) (l : list A) :
  sampled_from i (x :: l) =
  if bool_decide (i mod 3 ≠ 0)%nat then sampled_from (S i) l
  else x :: sampled_from (S i) l.
Proof.
  unfold sampled_from. rewrite imap_cons, filter_cons. cbn [fst].
  rewrite Nat.add_0_r.
  assert (Himap : imap ((λ j y, ((i + j)%nat, y)) ∘ S) l
                  = imap (λ j y, ((S i + j)%nat, y)) l).
  { apply imap_ext. intros j y _. cbn [compose]. f_equal. lia. }
  rewrite Himap.
  destruct (decide (i mod 3 = 0)%nat) as [Hi|Hi].
  - by rewrite bool_decide_eq_false_2 by (intros ?; done).
  - by rewrite bool_decide_eq_true_2.
Qed.

(** What the loop returns when it is started at decode index [i] with
    [acc] in hand. *)
Lemma parse_video_loop_rows (video : list color_frame) (i : nat)
    (acc rows : list ndarray) :
  (parse_video_loop (read_frames video) i acc).1 = Ok rows ↔
  ∃ grays rowss,
    Forall2 (λ frame gray, cvtColor frame = Ok gray) video grays ∧
    Forall2 (λ gray rs, parse_frame (slice2 150 630 635 1050 gray) = Ok rs)
            (sampled_from i grays) rowss ∧
    rows = acc ++ concat rowss.
Proof.
  revert i acc. induction video as [|frame rest IH]; intros i acc.
  - rewrite parse_video_loop_eq, read_frames_next_nil. simpl. split.
    + intros [= <-]. exists [], []. by rewrite app_nil_r.
    + intros (grays & rowss & Hg & Hr & ->).
      apply Forall2_nil_inv_l in Hg as ->.
      apply Forall2_nil_inv_l in Hr as ->. by rewrite app_nil_r.
  - rewrite parse_video_loop_eq, read_frames_next_cons.
    destruct (cvtColor frame) as [gray|e] eqn:Hgray.
    + destruct (bool_decide (i mod 3 ≠ 0)%nat) eqn:Hi.
      * rewrite IH. split.
        -- intros (grays & rowss & Hg & Hr & ->).
           exists (gray :: grays), rowss.
           rewrite sampled_from_cons, Hi. by split; [constructor|].
        -- intros (grays & rowss & Hg & Hr & ->).
           apply Forall2_cons_inv_l in Hg as (g & grays' & Hg1 & Hg & ->).
           rewrite Hgray in Hg1. injection Hg1 as <-.
           rewrite sampled_from_cons, Hi in Hr. by exists grays', rowss.
      * destruct (parse_frame (slice2 150 630 635 1050 gray))
          as [rs|e] eqn:Hrs.
        -- rewrite IH. split.
           ++ intros (grays & rowss & Hg & Hr & ->).
              exists (gray :: grays), (rs :: rowss).
              rewrite sampled_from_cons, Hi.
              split; [by constructor|]. split; [by constructor|].
              simpl. by rewrite app_assoc.
           ++ intros (grays & rowss & Hg & Hr & ->).
              apply Forall2_cons_inv_l in Hg as (g & grays' & Hg1 & Hg & ->).
              rewrite Hgray in Hg1. injection Hg1 as <-.
              rewrite sampled_from_cons, Hi in Hr.
              apply Forall2_cons_inv_l in Hr as (rs' & rowss' & Hr1 & Hr & ->).
              rewrite Hrs in Hr1. injection Hr1 as <-.
              exists grays', rowss'. simpl. by rewrite app_assoc.
        -- simpl. split; [done|].
           intros (grays & rowss & Hg & Hr & _).
           apply Forall2_cons_inv_l in Hg as (g & grays' & Hg1 & Hg & ->).
           rewrite Hgray in Hg1. injection Hg1 as <-.
           rewrite sampled_from_cons, Hi in Hr.
           apply Forall2_cons_inv_l in Hr as (rs' & rowss' & Hr1 & _).
           by rewrite Hrs in Hr1.
    + simpl. split; [done|].
      intros (grays & rowss & Hg & _).
      apply Forall2_cons_inv_l in Hg as (g & grays' & Hg1 & _).
      by rewrite Hgray in Hg1.
Qed.

(** C8: [parse_video] returns [rows] exactly when every frame decodes
    to grayscale, the Row Segmenter succeeds on the region of interest
    of each frame whose 0-based decode index is a multiple of 3, and
    [rows] is the concatenation of its outputs on those frames, in
    decode order. *)
Theorem parse_video_sampled (video : list color_frame)
    (rows : list ndarray) :
  parse_video video = Ok rows ↔
  ∃ grays rowss,
    Forall2 (λ frame gray, cvtColor frame = Ok gray) video grays ∧
    Forall2 (λ gray rs, parse_frame (slice2 150 630 635 1050 gray) = Ok rs)
            (sampled grays) rowss ∧
    rows = concat rowss.
Proof. apply parse_video_loop_rows. Qed.

(** The handle after the loop: released when the loop ends on the
    exhausted stream, still open when an exception ended it. *)
Lemma parse_video_loop_handle (video : list color_frame) (i : nat)
    (acc : list ndarray) :
  opened (cap (parse_video_loop (read_frames video) i acc).2) =
  match (parse_video_loop (read_frames video) i acc).1 with
  | Ok _ => false
  | Raise _ => true
  end.
Proof.
  revert i acc. induction video as [|frame rest IH]; intros i acc.
  - by rewrite parse_video_loop_eq, read_frames_next_nil.
  - rewrite parse_video_loop_eq, read_frames_next_cons.
    destruct (cvtColor frame) as [gray|e]; [|done].
    destruct (bool_decide (i mod 3 ≠ 0)%nat); [apply IH|].
    destruct (parse_frame (slice2 150 630 635 1050 gray)); [apply IH|done].
Qed.

(** Abandoning the generator at a [yield] leaves the handle open. *)
Lemma read_frames_close_handle (video : list color_frame)
    (frame : ndarray) (gen : frames_gen) :
  read_frames_next (read_frames video) = (Yield frame, gen) →
  opened (cap (read_frames_close gen)) = true.
Proof.
  destruct video as [|f rest]; [done|].
  rewrite read_frames_next_cons. destruct (cvtColor f); [|done].
  by intros [= _ <-].
Qed.

End sampler.

(** ** The order on strings *)

Lemma string_compare_refl (s : string) : String.compare s s = Eq.
Proof.
  pose proof (String.compare_antisym s s) as Hs.
  by destruct (String.compare s s).
Qed.

Lemma string_compare_lt_trans (a b c : string) :
  String.compare a b = Lt → String.compare b c = Lt →
  String.compare a c = Lt.
Proof.
  revert b c. induction a as [|x a IH]; intros [|y b] [|z c]; simpl;
    try done.
  unfold Ascii.compare.
  destruct (N.compare_spec (N_of_ascii x) (N_of_ascii y)) as [Hxy|Hxy|Hxy];
    destruct (N.compare_spec (N_of_ascii y) (N_of_ascii z)) as [Hyz|Hyz|Hyz];
    try done; intros Hab Hbc.
  - rewrite Hxy, Hyz, N.compare_refl. by apply (IH b).
  - rewrite Hxy. by apply N.compare_lt_iff in Hyz as ->.
  - rewrite <- Hyz. by apply N.compare_lt_iff in Hxy as ->.
  - assert (Hxz : (N_of_ascii x < N_of_ascii z)%N) by lia.
    by apply N.compare_lt_iff in Hxz as ->.
Qed.

Lemma string_ltb_irrefl (s : string) : String.ltb s s = false.
Proof. unfold String.ltb. by rewrite string_compare_refl. Qed.

Lemma string_ltb_trans (a b c : string) :
  String.ltb a b = true → String.ltb b c = true → String.ltb a c = true.
Proof.
  unfold String.ltb. intros Hab Hbc.
  rewrite (string_compare_lt_trans a b c); [done| |].
  - by destruct (String.compare a b).
  - by destruct (String.compare b c).
Qed.

Lemma string_ltb_total (a b : string) :
  String.ltb a b = false → String.ltb b a = false → a = b.
Proof.
  unfold String.ltb. rewrite (String.compare_antisym b a).
  destruct (String.compare a b) eqn:Hab; try done.
  intros _ _. by apply String.compare_eq_iff.
Qed.

Lemma string_leb_ltb (a b : string) :
  String.leb a b = negb (String.ltb b a).
Proof.
  unfold String.leb, String.ltb. rewrite (String.compare_antisym b a).
  by destruct (String.compare a b).
Qed.

#[global] Instance pystr_le_total : Total PyStr.le.
Proof. intros a b. apply String.leb_total. Qed.

#[global] Instance pystr_le_trans : Transitive PyStr.le.
Proof.
  intros a b c. unfold PyStr.le. rewrite !string_leb_ltb, !negb_true_iff.
  intros Hba Hcb.
  destruct (String.ltb c a) eqn:Hca; [|done]. exfalso.
  destruct (String.ltb a b) eqn:Hab.
  - by rewrite (string_ltb_trans c a b) in Hcb.
  - rewrite (string_ltb_total a b) in Hca by done. congruence.
Qed.

#[global] Instance pystr_le_antisym : AntiSymm eq PyStr.le.
Proof. intros a b. apply String.leb_antisym. Qed.

(** ** difflib: the best match *)

Section best_match.
Context {libs : Libraries}.
Import Difflib.

Lemma tuple_gt_irrefl (p : Q * string) : tuple_gt p p = false.
Proof.
  unfold tuple_gt.
  destruct (Qcompare_spec p.1 p.1) as [_|Hlt|Hlt];
    [apply string_ltb_irrefl|done|].
  by apply Qlt_irrefl in Hlt.
Qed.

Lemma tuple_gt_asym (p q : Q * string) :
  tuple_gt p q = true → tuple_gt q p = false.
Proof.
  unfold tuple_gt. rewrite <- (Qcompare_antisym p.1 q.1).
  destruct (p.1 ?= q.1)%Q; simpl; try done.
  intros Hqp. destruct (String.ltb p.2 q.2) eqn:Hpq; [|done].
  pose proof (string_ltb_trans _ _ _ Hqp Hpq) as Hqq.
  by rewrite string_ltb_irrefl in Hqq.
Qed.

(** [q <= p] on tuples, as [not (q > p)]. *)
Lemma tuple_le_inv (q p : Q * string) :
  tuple_gt q p = false →
  (q.1 < p.1)%Q ∨ (q.1 == p.1)%Q ∧ String.ltb p.2 q.2 = false.
Proof.
  unfold tuple_gt.
  destruct (Qcompare_spec q.1 p.1) as [Heq|Hlt|Hgt]; [by right|by left|done].
Qed.

Lemma tuple_le_intro (q p : Q * string) :
  (q.1 < p.1)%Q ∨ (q.1 == p.1)%Q ∧ String.ltb p.2 q.2 = false →
  tuple_gt q p = false.
Proof.
  unfold tuple_gt.
  destruct (Qcompare_spec q.1 p.1) as [Heq|Hlt|Hgt]; [|done|].
  - intros [Hlt|[_ Hs]]; [|done].
    rewrite Heq in Hlt. by apply Qlt_irrefl in Hlt.
  - intros [Hlt|[Heq _]].
    + by apply (Qlt_trans _ _ _ Hgt), Qlt_irrefl in Hlt.
    + rewrite Heq in Hgt. by apply Qlt_irrefl in Hgt.
Qed.

Lemma tuple_le_trans (a b c : Q * string) :
  tuple_gt a b = false → tuple_gt b c = false → tuple_gt a c = false.
Proof.
  intros Hab%tuple_le_inv Hbc%tuple_le_inv. apply tuple_le_intro.
  destruct Hab as [Hab|[Hab Hsab]], Hbc as [Hbc|[Hbc Hsbc]].
  - left. by apply (Qlt_trans _ b.1).
  - left. by rewrite <- Hbc.
  - left. by rewrite Hab.
  - right. split; [by rewrite Hab|].
    destruct (String.ltb c.2 a.2) eqn:Hca; [|done].
    destruct (String.ltb a.2 b.2) eqn:Hlt.
    + by rewrite (string_ltb_trans _ _ _ Hca Hlt) in Hsbc.
    + rewrite (string_ltb_total a.2 b.2) in Hca by done. congruence.
Qed.

Lemma foldl_max_spec (l : list (Q * string)) (best : Q * string) :
  let top := foldl (λ best item, if tuple_gt item best then item else best)
                   best l in
  top ∈ best :: l ∧ ∀ q, q ∈ best :: l → tuple_gt q top = false.
Proof.
  revert best. induction l as [|item l IH]; intros best; simpl.
  - split; [left|]. intros q ->%list_elem_of_singleton.
    apply tuple_gt_irrefl.
  - destruct (tuple_gt item best) eqn:Hgt.
    + destruct (IH item) as [Hin Hmax]. split; [by right|].
      intros q [->|Hq]%elem_of_cons; [|by apply Hmax].
      apply (tuple_le_trans _ item); [by apply tuple_gt_asym|].
      apply Hmax. left.
    + destruct (IH best) as [Hin Hmax]. split.
      * apply elem_of_cons in Hin as [->|Hin]; [left|by do 2 right].
      * intros q [->|[->|Hq]%elem_of_cons]%elem_of_cons.
        -- apply Hmax. left.
        -- apply (tuple_le_trans _ best); [done|]. apply Hmax. left.
        -- apply Hmax. by right.
Qed.

Lemma max_tuple_Some (l : list (Q * string)) (p : Q * string) :
  max_tuple l = Some p → p ∈ l ∧ ∀ q, q ∈ l → tuple_gt q p = false.
Proof.
  destruct l as [|p0 l]; [done|]. simpl. intros [= <-].
  apply foldl_max_spec.
Qed.

Lemma elem_of_scored (word : string) (possibilities : list string)
    (cut : Q) (p : Q * string) :
  p ∈ scored word possibilities cut ↔
  p.2 ∈ possibilities ∧ p.1 = ratio p.2 word ∧ (cut <= ratio p.2 word)%Q.
Proof.
  induction possibilities as [|x l IH]; simpl.
  - split; [by intros ?%elem_of_nil|]. by intros [?%elem_of_nil _].
  - destruct (Qle_bool cut (ratio x word)) eqn:Hcut.
    + apply Qle_bool_iff in Hcut.
      rewrite !elem_of_cons, IH. split.
      * intros [->|(Hin & Hr & Hc)]; [by split; [left|]|by split; [right|]].
      * intros ([Hx|Hin] & Hr & Hc); [left|by right].
        destruct p as [s y]. simpl in *. by subst.
    + rewrite elem_of_cons, IH. split.
      * intros (Hin & Hr & Hc). by split; [right|].
      * intros ([Hx|Hin] & Hr & Hc); [|done].
        rewrite Hx in Hc. apply Qle_bool_iff in Hc. congruence.
Qed.

(** No possibility reaches the cutoff: no match. *)
Lemma get_close_matches_nil (word : string) (possibilities : list string)
    (cut : Q) :
  get_close_matches word possibilities cut = [] ↔
  ∀ x, x ∈ possibilities → (ratio x word < cut)%Q.
Proof.
  unfold get_close_matches, nlargest1.
  destruct (scored word possibilities cut) as [|p l] eqn:Hsc; simpl.
  - split; [|done]. intros _ x Hx. apply Qnot_le_lt. intros Hc.
    apply (not_elem_of_nil (ratio x word, x)). rewrite <- Hsc.
    by apply elem_of_scored.
  - split; [done|]. intros Hall. exfalso.
    assert (Hp : p ∈ scored word possibilities cut) by (rewrite Hsc; left).
    apply elem_of_scored in Hp as (Hin & _ & Hc).
    by apply (Qle_not_lt _ _ Hc), Hall.
Qed.

(** Otherwise the match is the greatest [(score, word)] tuple among the
    possibilities that reach the cutoff. *)
Lemma get_close_matches_cons (word : string) (possibilities : list string)
    (cut : Q) (m : string) (ms : list string) :
  get_close_matches word possibilities cut = m :: ms →
  ms = [] ∧ m ∈ possibilities ∧ (cut <= ratio m word)%Q ∧
  ∀ x, x ∈ possibilities → (cut <= ratio x word)%Q →
       tuple_gt (ratio x word, x) (ratio m word, m) = false.
Proof.
  unfold get_close_matches, nlargest1.
  destruct (max_tuple (scored word possibilities cut)) as [p|] eqn:Hmax;
    [|done].
  simpl. intros [= <- <-]. split; [done|].
  apply max_tuple_Some in Hmax as [Hp Hmax].
  apply elem_of_scored in Hp as (Hin & Hr & Hc).
  split; [done|]. split; [done|]. intros x Hx Hxc.
  destruct p as [s m]. simpl in *. subst s.
  apply Hmax, elem_of_scored. by simpl.
Qed.

(** The outcome does not depend on the order in which the
    possibilities are enumerated, nor on repetitions. *)
Lemma get_close_matches_ext (word : string) (l1 l2 : list string)
    (cut : Q) :
  (∀ x, x ∈ l1 ↔ x ∈ l2) →
  get_close_matches word l1 cut = get_close_matches word l2 cut.
Proof.
  intros Hl.
  destruct (get_close_matches word l1 cut) as [|m1 ms1] eqn:H1;
    destruct (get_close_matches word l2 cut) as [|m2 ms2] eqn:H2.
  - done.
  - apply get_close_matches_cons in H2 as (_ & Hin & Hc & _).
    rewrite get_close_matches_nil in H1.
    by apply Hl, H1, (Qle_not_lt _ _ Hc) in Hin.
  - apply get_close_matches_cons in H1 as (_ & Hin & Hc & _).
    rewrite get_close_matches_nil in H2.
    by apply Hl, H2, (Qle_not_lt _ _ Hc) in Hin.
  - apply get_close_matches_cons in H1 as (-> & Hin1 & Hc1 & Hmax1).
    apply get_close_matches_cons in H2 as (-> & Hin2 & Hc2 & Hmax2).
    f_equal.
    pose proof (Hmax1 m2 (proj2 (Hl m2) Hin2) Hc2) as H21%tuple_le_inv.
    pose proof (Hmax2 m1 (proj1 (Hl m1) Hin1) Hc1) as H12%tuple_le_inv.
    simpl in *.
    destruct H21 as [H21|[H21' H21]], H12 as [H12|[H12' H12]].
    + by apply (Qlt_trans _ _ _ H21), Qlt_irrefl in H12.
    + rewrite H12' in H21. by apply Qlt_irrefl in H21.
    + rewrite H21' in H12. by apply Qlt_irrefl in H12.
    + by apply string_ltb_total.
Qed.

End best_match.

(** ** Matcher *)

Section matcher.
Context {libs : Libraries}.
Import Difflib.

Lemma match_items_log_cons (item : string) (names : list string)
    (item_db : gset string) (st : gset string * list log_record) :
  foldl (match_items_step item_db) st (item :: names)
  = foldl (match_items_step item_db) (match_items_step item_db st item) names.
Proof. done. Qed.

(** A turn adds to the set what the same turn adds to the empty set. *)
Lemma match_items_step_union (item_db : gset string)
    (st : gset string * list log_record) (item : string) :
  (match_items_step item_db st item).1
  = st.1 ∪ (match_items_step item_db (∅, []) item).1.
Proof.
  destruct st as [matched log]. unfold match_items_step.
  destruct (decide (item ∈ item_db)); simpl; [set_solver|].
  destruct (get_close_matches item (elements item_db) cutoff); simpl;
    set_solver.
Qed.

Lemma match_items_step_subseteq (item_db : gset string) (item : string) :
  (match_items_step item_db (∅, []) item).1 ⊆ item_db.
Proof.
  unfold match_items_step.
  destruct (decide (item ∈ item_db)); simpl; [set_solver|].
  destruct (get_close_matches item (elements item_db) cutoff) as [|m ms]
    eqn:Hm; simpl; [set_solver|].
  apply get_close_matches_cons in Hm as (_ & Hin & _).
  apply elem_of_elements in Hin. set_solver.
Qed.

Lemma match_items_fold (item_db : gset string) (names : list string)
    (st : gset string * list log_record) :
  (foldl (match_items_step item_db) st names).1
  = st.1 ∪ ⋃ ((λ c, match_items [c] item_db) <$> names).
Proof.
  revert st. induction names as [|c names IH]; intros st.
  - simpl. set_solver.
  - rewrite match_items_log_cons, IH, match_items_step_union.
    rewrite fmap_cons, union_list_cons. unfold match_items at 2.
    unfold match_items_log. simpl. set_solver.
Qed.

Lemma match_items_union (names : list string) (item_db : gset string) :
  match_items names item_db = ⋃ ((λ c, match_items [c] item_db) <$> names).
Proof.
  unfold match_items at 1. unfold match_items_log.
  rewrite match_items_fold. set_solver.
Qed.

Lemma match_items_subseteq (names : list string) (item_db : gset string) :
  match_items names item_db ⊆ item_db.
Proof.
  rewrite match_items_union. intros x Hx.
  apply elem_of_union_list in Hx as (X & HX & Hx).
  apply list_elem_of_fmap in HX as (c & -> & _).
  by apply (match_items_step_subseteq item_db c).
Qed.

(** What [scan_catalog] returns, from the set the Matcher built. *)
Lemma scan_catalog_Ok (video : list color_frame) (items_json out : list string) :
  scan_catalog video items_json = Ok out →
  ∃ names : gset string,
    out = PyStr.sorted
            (elements (match_items (elements names) (list_to_set items_json))).
Proof.
  unfold scan_catalog. destruct (parse_video video) as [item_rows|]; [|done].
  simpl. destruct (run_tesseract item_rows) as [names|]; [|done].
  simpl. intros [= <-]. by exists names.
Qed.

(** C1: every string of the Matcher's result is a member of the
    vocabulary, and so is every string that [scan_catalog] returns. *)
Theorem matched_in_vocabulary (parsed_names : list string)
    (item_db : gset string) (video : list color_frame)
    (items_json out : list string) :
  match_items parsed_names item_db ⊆ item_db ∧
  (scan_catalog video items_json = Ok out →
   ∀ x, x ∈ out → x ∈ (list_to_set items_json : gset string)).
Proof.
  split; [apply match_items_subseteq|].
  intros (names & ->)%scan_catalog_Ok x Hx.
  unfold PyStr.sorted in Hx. rewrite merge_sort_Permutation in Hx.
  apply elem_of_elements in Hx. by apply match_items_subseteq in Hx.
Qed.

(** C2: the sequence that [scan_catalog] returns is sorted by the
    order on strings and has no duplicates, whatever the order in which
    the Matcher's result is enumerated. *)
Theorem scan_catalog_sorted (video : list color_frame)
    (items_json out : list string) :
  scan_catalog video items_json = Ok out →
  StronglySorted PyStr.le out ∧ NoDup out.
Proof.
  intros (names & ->)%scan_catalog_Ok. unfold PyStr.sorted. split.
  - apply (StronglySorted_merge_sort PyStr.le).
  - rewrite merge_sort_Permutation. apply NoDup_elements.
Qed.

(** C3: on the singleton of a member [c] of the vocabulary the Matcher
    returns exactly [{c}]; nothing is logged, whereas the fuzzy branch
    logs a record on each of its two ways out, and the outcome is the
    same for every similarity [ratio]. *)
Theorem match_items_exact (c : string) (item_db : gset string) :
  c ∈ item_db →
  match_items_log (elements ({[ c ]} : gset string)) item_db = ({[ c ]}, []).
Proof.
  intros Hc. rewrite elements_singleton.
  unfold match_items_log, match_items_step. simpl.
  rewrite decide_True by done. f_equal. set_solver.
Qed.

(** The fuzzy branch always leaves a record in the log. *)
Lemma match_items_fuzzy_logs (c : string) (item_db : gset string) :
  c ∉ item_db → length (match_items_log [c] item_db).2 = 1%nat.
Proof.
  intros Hc. unfold match_items_log, match_items_step. simpl.
  rewrite decide_False by done.
  by destruct (get_close_matches c (elements item_db) cutoff).
Qed.

(** C4: for a candidate [c] outside the vocabulary, if some entry
    scores 0.8 or more then one entry of highest score is accepted,
    alone; if every entry scores below 0.8 the candidate is dropped,
    with a warning. *)
Theorem match_items_cutoff (c : string) (item_db : gset string) :
  c ∉ item_db →
  ((∃ x, x ∈ item_db ∧ (8 # 10 <= ratio x c)%Q) →
   ∃ m, m ∈ item_db ∧ (8 # 10 <= ratio m c)%Q ∧
        (∀ x, x ∈ item_db → (ratio x c <= ratio m c)%Q) ∧
        match_items_log [c] item_db = ({[ m ]}, [Info c m])) ∧
  ((∀ x, x ∈ item_db → (ratio x c < 8 # 10)%Q) →
   match_items_log [c] item_db = (∅, [Warning c])).
Proof.
  intros Hc. unfold match_items_log, match_items_step. simpl.
  rewrite decide_False by done.
  destruct (get_close_matches c (elements item_db) cutoff) as [|m ms]
    eqn:Hm.
  - rewrite get_close_matches_nil in Hm. split; [|done].
    intros (x & Hx & Hcut). exfalso.
    apply (Qle_not_lt _ _ Hcut), Hm. by apply elem_of_elements.
  - apply get_close_matches_cons in Hm as (-> & Hin & Hcut & Hmax). split.
    + intros _. exists m. apply elem_of_elements in Hin.
      split; [done|]. split; [done|]. split.
      * intros x Hx. destruct (Qlt_le_dec (ratio x c) cutoff) as [Hlt|Hle].
        -- apply Qlt_le_weak. by apply (Qlt_le_trans _ cutoff).
        -- apply elem_of_elements in Hx.
           destruct (tuple_le_inv _ _ (Hmax x Hx Hle)) as [Hlt|[Heq _]];
             simpl in *; [by apply Qlt_le_weak|].
           rewrite Heq. apply Qle_refl.
      * f_equal. set_solver.
    + intros Hall. exfalso. apply elem_of_elements in Hin.
      by apply (Qle_not_lt _ _ Hcut), Hall.
Qed.

(** C10: the Matcher's result is the union of its results on the
    singletons, so two enumerations of the same candidates give the
    same set. *)
Theorem match_items_order (names names' : list string)
    (item_db : gset string) :
  (∀ x, x ∈ names ↔ x ∈ names') →
  match_items names item_db = match_items names' item_db ∧
  match_items names item_db
  = ⋃ ((λ c, match_items [c] item_db) <$> names).
Proof.
  intros Hsame. split; [|apply match_items_union].
  rewrite (match_items_union names), (match_items_union names').
  apply set_eq. intros x. rewrite !elem_of_union_list. split.
  - intros (X & HX & Hx). exists X. split; [|done].
    apply list_elem_of_fmap in HX as (c & -> & Hc).
    apply list_elem_of_fmap. exists c. split; [done|]. by apply Hsame.
  - intros (X & HX & Hx). exists X. split; [|done].
    apply list_elem_of_fmap in HX as (c & -> & Hc).
    apply list_elem_of_fmap. exists c. split; [done|]. by apply Hsame.
Qed.

End matcher.

(** ** The scanner on the sample inputs *)

(** Closes a decidable statement about concrete data by evaluation. *)
Ltac by_evaluation := apply (bool_decide_unpack _); vm_compute; exact I.

Lemma matched_in_vocabulary_witness :
  scan_catalog (libs := stub_libraries sample_text) [sample_frame]
               sample_vocabulary
  = Ok ["cracked shield"; "iron sword"]%string ∧
  ∀ x, x ∈ ["cracked shield"; "iron sword"]%string →
       x ∈ (list_to_set sample_vocabulary : gset string).
Proof.
  assert (Hscan : scan_catalog (libs := stub_libraries sample_text)
                    [sample_frame] sample_vocabulary
                  = Ok ["cracked shield"; "iron sword"]%string)
    by (vm_compute; reflexivity).
  split; [exact Hscan|].
  exact (proj2 (matched_in_vocabulary (libs := stub_libraries sample_text)
                  [] ∅ [sample_frame] sample_vocabulary _) Hscan).
Defined.

Lemma scan_catalog_sorted_witness :
  scan_catalog (libs := stub_libraries sample_text)
               [sample_frame; qvga_frame; qvga_frame] sample_vocabulary
  = Ok ["cracked shield"; "iron sword"]%string ∧
  StronglySorted PyStr.le ["cracked shield"; "iron sword"]%string ∧
  NoDup ["cracked shield"; "iron sword"]%string.
Proof.
  assert (Hscan : scan_catalog (libs := stub_libraries sample_text)
                    [sample_frame; qvga_frame; qvga_frame] sample_vocabulary
                  = Ok ["cracked shield"; "iron sword"]%string)
    by (vm_compute; reflexivity).
  split; [exact Hscan|].
  exact (scan_catalog_sorted (libs := stub_libraries sample_text) _ _ _ Hscan).
Defined.

Lemma match_items_exact_witness :
  ("iron sword"%string ∈ (list_to_set sample_vocabulary : gset string)) ∧
  match_items_log (libs := stub_libraries EmptyString)
    (elements ({[ "iron sword"%string ]} : gset string))
    (list_to_set sample_vocabulary)
  = ({[ "iron sword"%string ]}, []).
Proof.
  assert (Hin : "iron sword"%string
                ∈ (list_to_set sample_vocabulary : gset string))
    by by_evaluation.
  split; [exact Hin|].
  exact (match_items_exact (libs := stub_libraries EmptyString) _ _ Hin).
Defined.

(** ["lron sw0rd"] scores exactly 16/20 = 0.8 against ["iron sword"]. *)
Lemma match_items_cutoff_witness :
  let libs := stub_libraries EmptyString in
  let c := "lron sw0rd"%string in
  let w := "iron sword"%string in
  let item_db : gset string := list_to_set sample_vocabulary in
  (c ∉ item_db) ∧
  Qeq (ratio w c) (8 # 10) ∧
  ((∃ x, x ∈ item_db ∧ (8 # 10 <= ratio x c)%Q) →
   ∃ m, m ∈ item_db ∧ (8 # 10 <= ratio m c)%Q ∧
        (∀ x, x ∈ item_db → (ratio x c <= ratio m c)%Q) ∧
        match_items_log [c] item_db = ({[ m ]}, [Info c m])) ∧
  ((∀ x, x ∈ item_db → (ratio x c < 8 # 10)%Q) →
   match_items_log [c] item_db = (∅, [Warning c])).
Proof.
  intros libs c w item_db.
  assert (Hc : c ∉ item_db) by by_evaluation.
  split; [exact Hc|]. split; [by vm_compute|].
  exact (match_items_cutoff (libs := libs) c item_db Hc).
Defined.

Lemma match_items_order_witness :
  let libs := stub_libraries EmptyString in
  let names := ["crackd sheild"; "iron sword"]%string in
  let names' := ["iron sword"; "crackd sheild"; "iron sword"]%string in
  let item_db : gset string := list_to_set sample_vocabulary in
  (∀ x, x ∈ names ↔ x ∈ names') ∧
  match_items names item_db = match_items names' item_db ∧
  match_items names item_db = ⋃ ((λ c, match_items [c] item_db) <$> names).
Proof.
  intros libs names names' item_db.
  assert (Hsame : ∀ x, x ∈ names ↔ x ∈ names').
  { intros x. unfold names, names'.
    rewrite !elem_of_cons, !elem_of_nil. tauto. }
  split; [exact Hsame|].
  exact (match_items_order (libs := libs) names names' item_db Hsame).
Defined.

(** Frames 1, 2 and 4 have no region of interest: segmenting any of them
    would raise.  They are decoded and skipped. *)
Lemma parse_video_sampled_witness :
  parse_video (libs := stub_libraries EmptyString)
    [sample_frame; qvga_frame; qvga_frame; sample_frame; qvga_frame]
  = Ok (concat [[column_frame (replicate 40 255)];
                [column_frame (replicate 40 255)]]).
Proof.
  apply (proj2 (parse_video_sampled (libs := stub_libraries EmptyString)
                  _ _)).
  exists [sample_frame; qvga_frame; qvga_frame; sample_frame; qvga_frame].
  exists [[column_frame (replicate 40 255)];
          [column_frame (replicate 40 255)]].
  split; [by repeat constructor|].
  split; [|reflexivity].
  change (sampled [sample_frame; qvga_frame; qvga_frame; sample_frame;
                   qvga_frame])
    with [sample_frame; sample_frame].
  repeat constructor; vm_compute; reflexivity.
Defined.

(** ** Where the code leaves the specification *)

Lemma elem_of_cleanup (parsed_text x : string) :
  x ∈ cleanup parsed_text ↔
  ∃ t, t ∈ PyStr.split PyStr.nl parsed_text ∧ t ≠ EmptyString ∧
       x = PyStr.lower (PyStr.strip t).
Proof.
  unfold cleanup. rewrite elem_of_list_to_set, list_elem_of_fmap.
  split.
  - intros (t & -> & [Ht Hin]%list_elem_of_filter). by exists t.
  - intros (t & Hin & Ht & ->). exists t. split; [done|].
    by apply list_elem_of_filter.
Qed.

(** C7: a line made of one space passes the test [if t], which looks at
    the line before it is trimmed, and leaves the empty string among the
    candidate names. *)
Theorem run_tesseract_blank_line :
  ∃ names,
    run_tesseract (libs := stub_libraries blank_line_text)
      [column_frame [255]] = Ok names ∧
    EmptyString ∈ names ∧
    PyStr.strip " " = EmptyString.
Proof.
  eexists. split; [reflexivity|]. split; [|reflexivity].
  apply elem_of_cleanup. exists " "%string.
  split; [by_evaluation|]. split; [done|reflexivity].
Qed.

(** C9: on a 320 x 240 recording the Row Segmenter raises on frame 0
    while [read_frames] is suspended at its [yield]; [cap.release()] is
    not reached and the handle stays open.  It stays open as well when
    the consumer closes the generator after the first frame. *)
Theorem read_frames_handle_left_open :
  let libs := stub_libraries EmptyString in
  let run := parse_video_run [qvga_frame; qvga_frame] in
  run.1 = Raise IndexError ∧
  opened (cap run.2) = true ∧
  opened (cap (read_frames_close
                 (read_frames_next (read_frames [sample_frame])).2)) = true.
Proof. intros libs run. by vm_compute. Qed.

(** * Further properties *)

(** ** Row Segmenter: shape and layout of the rows *)

Lemma pairwise_lines_bounds (frame : ndarray) (col : list Z) :
  column0 frame = Ok col →
  Forall (λ p : Z * Z, 0 ≤ p.1 ∧ p.2 < Z.of_nat (nrows frame))
         (Py.pairwise (separator_lines col)).
Proof.
  intros Hcol. apply Forall_forall. intros [y1 y2] Hp.
  unfold Py.pairwise, separator_lines in Hp.
  pose proof (elem_of_zip_l _ _ _ _ Hp) as H1.
  pose proof (elem_of_zip_r _ _ _ _ Hp) as H2. simpl in H1, H2.
  apply elem_of_nonzero_less, line_pixel_bound in H2.
  rewrite (column0_length _ _ Hcol) in H2. simpl. split; [|lia].
  apply elem_of_cons in H1 as [->|H1]; [done|].
  apply elem_of_nonzero_less, line_pixel_bound in H1. lia.
Qed.

Lemma parse_frame_Ok (frame : ndarray) (out : list ndarray) :
  parse_frame frame = Ok out →
  ∃ col, column0 frame = Ok col ∧
         out = parse_frame_rows frame (Py.pairwise (separator_lines col)).
Proof.
  unfold parse_frame. destruct (column0 frame) as [col|]; [|done].
  simpl. intros [= <-]. by exists col.
Qed.

Lemma parse_frame_rows_shape (frame : ndarray) (out : list ndarray) :
  parse_frame frame = Ok out →
  Forall (λ r, ncols r = ncols frame ∧ (31 ≤ nrows r ≤ 49)%nat) out.
Proof.
  intros (col & Hcol & ->)%parse_frame_Ok.
  rewrite parse_frame_rows_filter. apply Forall_fmap, Forall_forall.
  intros [y1 y2] [Hb Hp]%list_elem_of_filter.
  pose proof (pairwise_lines_bounds frame col Hcol) as Hbounds.
  rewrite Forall_forall in Hbounds. destruct (Hbounds _ Hp) as [Hy1 Hy2].
  simpl in Hy1, Hy2.
  destruct (slice_rows_is_crop frame y1 y2 Hy1 Hy2 Hb) as (Hw & Hh & _).
  unfold band in Hb. simpl in *. split; [done|lia].
Qed.

(** Every row image keeps the width of the frame and is between 31 and
    49 pixels high. *)
Theorem parse_frame_row_shape (frame : ndarray) (out : list ndarray) :
  parse_frame frame = Ok out →
  Forall (λ r, ncols r = ncols frame ∧ (31 ≤ nrows r ≤ 49)%nat) out.
Proof. apply parse_frame_rows_shape. Qed.

Lemma parse_frame_row_shape_witness :
  parse_frame (column_frame (one_line_column 51 50))
  = Ok [column_frame (replicate 40 255)] ∧
  Forall (λ r, ncols r = ncols (column_frame (one_line_column 51 50))
               ∧ (31 ≤ nrows r ≤ 49)%nat)
         [column_frame (replicate 40 255)].
Proof.
  assert (Hrun : parse_frame (column_frame (one_line_column 51 50))
                 = Ok [column_frame (replicate 40 255)])
    by (vm_compute; reflexivity).
  split; [exact Hrun|]. exact (parse_frame_row_shape _ _ Hrun).
Defined.






(** ** Frame Source: the region of interest *)

Lemma adjust_index_nonneg (len : nat) (i : Z) :
  0 ≤ i → Py.adjust_index len i = (Z.to_nat i `min` len)%nat.
Proof.
  intros Hi. unfold Py.adjust_index.
  destruct (Z.ltb_spec i 0); [lia|]. lia.
Qed.

Lemma slice_length_le {A} (lo hi : Z) (l : list A) :
  0 ≤ lo ≤ hi → (length (Py.slice lo hi l) ≤ Z.to_nat (hi - lo))%nat.
Proof.
  intros Hlo. unfold Py.slice. rewrite length_take, length_drop.
  rewrite !adjust_index_nonneg by lia. lia.
Qed.

Lemma slice_len_le (lo hi : Z) (n : nat) :
  0 ≤ lo ≤ hi → (Py.slice_len lo hi n ≤ Z.to_nat (hi - lo))%nat.
Proof.
  intros Hlo. unfold Py.slice_len. rewrite !adjust_index_nonneg by lia. lia.
Qed.

Lemma slice_len_narrow (lo hi : Z) (n : nat) :
  0 ≤ lo → Z.of_nat n ≤ lo → Py.slice_len lo hi n = 0%nat.
Proof.
  intros Hlo Hn. unfold Py.slice_len, Py.adjust_index.
  destruct (Z.ltb_spec lo 0); [lia|]. destruct (Z.ltb_spec hi 0); lia.
Qed.

Lemma roi_shape (gray : ndarray) :
  (nrows (slice2 150 630 635 1050 gray) ≤ 480)%nat ∧
  (ncols (slice2 150 630 635 1050 gray) ≤ 415)%nat ∧
  Forall (λ r : list Z, (length r ≤ 415)%nat)
         (rows (slice2 150 630 635 1050 gray)).
Proof.
  unfold slice2, nrows. simpl. split; [|split].
  - rewrite length_fmap.
    pose proof (slice_length_le 150 630 (rows gray)). lia.
  - pose proof (slice_len_le 635 1050 (ncols gray)). lia.
  - apply Forall_fmap, Forall_forall. intros r _. simpl.
    pose proof (slice_length_le 635 1050 r). lia.
Qed.

Section frame_source.
Context {libs : Libraries}.

Lemma read_frames_next_Yield (gen gen' : frames_gen) (frame : ndarray) :
  read_frames_next gen = (Yield frame, gen') →
  ∃ gray, frame = slice2 150 630 635 1050 gray.
Proof.
  unfold read_frames_next. destruct (running gen); simpl; [|done].
  destruct (cap_read (cap gen)) as [[f|] cap']; [|done].
  destruct (cvtColor f) as [gray|]; [|done].
  intros [= <- _]. by exists gray.
Qed.

(** Whatever the size of the recording, a frame handed out by
    [read_frames] has at most 480 rows and at most 415 columns. *)
Theorem read_frames_roi_bounds (gen gen' : frames_gen) (frame : ndarray) :
  read_frames_next gen = (Yield frame, gen') →
  (nrows frame ≤ 480)%nat ∧ (ncols frame ≤ 415)%nat ∧
  Forall (λ r : list Z, (length r ≤ 415)%nat) (rows frame).
Proof. intros (gray & ->)%read_frames_next_Yield. apply roi_shape. Qed.

(** On a recording of at least 630 rows and 1050 columns the frame
    handed out is exactly 480 x 415, and its pixel [(i, j)] is pixel
    [(150 + i, 635 + j)] of the grayscale frame. *)
Theorem read_frames_roi_pixels (frame : color_frame)
    (rest : list color_frame) (gray : ndarray) :
  cvtColor frame = Ok gray →
  (630 ≤ nrows gray)%nat →
  Forall (λ r : list Z, (1050 ≤ length r)%nat) (rows gray) →
  ∃ roi,
    (read_frames_next (read_frames (frame :: rest))).1 = Yield roi ∧
    nrows roi = 480%nat ∧
    Forall (λ r : list Z, length r = 415%nat) (rows roi) ∧
    ∀ i j : nat, (i < 480)%nat → (j < 415)%nat →
      rows roi !! i ≫= (.!! j)
      = rows gray !! (150 + i)%nat ≫= (.!! (635 + j)%nat).
Proof.
  intros Hgray Hrows Hcols. rewrite read_frames_next_cons, Hgray.
  eexists. split; [reflexivity|]. unfold slice2, nrows in *. cbn [rows].
  assert (Hlen : length (Py.slice 150 630 (rows gray)) = 480%nat).
  { pose proof (slice_inside_length 150 630 (rows gray)). lia. }
  assert (Hsub : ∀ r, r ∈ Py.slice 150 630 (rows gray) →
                      (1050 ≤ length r)%nat).
  { intros r Hr. rewrite Forall_forall in Hcols. apply Hcols.
    unfold Py.slice in Hr. by apply subseteq_take, subseteq_drop in Hr. }
  split; [by rewrite length_fmap|]. split.
  - apply Forall_fmap, Forall_forall. intros r Hr%Hsub. cbn [compose].
    pose proof (slice_inside_length 635 1050 r). lia.
  - intros i j Hi Hj. rewrite list_lookup_fmap.
    rewrite slice_inside_lookup by lia.
    replace (Z.to_nat 150 + i)%nat with (150 + i)%nat by lia.
    destruct (rows gray !! (150 + i)%nat) as [r|] eqn:Hr; [|done].
    cbn [fmap option_fmap option_map mbind option_bind].
    assert (Hw : (1050 ≤ length r)%nat).
    { rewrite Forall_forall in Hcols.
      by eapply Hcols, list_elem_of_lookup_2. }
    pose proof (slice_inside_length 635 1050 r ltac:(lia) ltac:(lia)).
    rewrite slice_inside_lookup by lia. f_equal.
Qed.

End frame_source.

Lemma read_frames_roi_bounds_witness :
  let libs := stub_libraries EmptyString in
  ∃ frame gen',
    read_frames_next (read_frames [qvga_frame]) = (Yield frame, gen') ∧
    (nrows frame ≤ 480)%nat ∧ (ncols frame ≤ 415)%nat ∧
    Forall (λ r : list Z, (length r ≤ 415)%nat) (rows frame).
Proof.
  intros libs.
  assert (Hnext : read_frames_next (read_frames [qvga_frame])
                  = (Yield (slice2 150 630 635 1050 qvga_frame),
                     read_frames [])) by reflexivity.
  eexists _, _. split; [exact Hnext|].
  exact (read_frames_roi_bounds _ _ _ Hnext).
Defined.

Lemma read_frames_roi_pixels_witness :
  let libs := stub_libraries EmptyString in
  ∃ roi,
    (read_frames_next (read_frames [full_frame])).1 = Yield roi ∧
    nrows roi = 480%nat ∧
    Forall (λ r : list Z, length r = 415%nat) (rows roi) ∧
    ∀ i j : nat, (i < 480)%nat → (j < 415)%nat →
      rows roi !! i ≫= (.!! j)
      = rows full_frame !! (150 + i)%nat ≫= (.!! (635 + j)%nat).
Proof.
  intros libs.
  apply (read_frames_roi_pixels (libs := libs) full_frame [] full_frame).
  - reflexivity.
  - unfold nrows, full_frame. cbn [rows]. rewrite length_replicate. lia.
  - unfold full_frame. cbn [rows]. apply Forall_replicate.
    rewrite length_replicate. lia.
Defined.

(** ** Frame Sampler: errors, release, batch shape, skipped frames *)

Section sampler_more.
Context {libs : Libraries}.

(** A recording at most 635 pixels wide has no column in the region of
    interest: the Row Segmenter raises [IndexError] on frame 0, and so
    do [parse_video] and [scan_catalog]. *)
Theorem scan_catalog_narrow_video (frame : color_frame)
    (rest : list color_frame) (gray : ndarray) (items_json : list string) :
  cvtColor frame = Ok gray → (ncols gray ≤ 635)%nat →
  parse_video (frame :: rest) = Raise IndexError ∧
  scan_catalog (frame :: rest) items_json = Raise IndexError.
Proof.
  intros Hgray Hw.
  assert (Hpv : parse_video (frame :: rest) = Raise IndexError).
  { unfold parse_video, parse_video_run.
    rewrite parse_video_loop_eq, read_frames_next_cons, Hgray.
    rewrite bool_decide_eq_false_2 by (intros Hm; by apply Hm).
    unfold parse_frame, column0, slice2. cbn [ncols].
    rewrite slice_len_narrow by lia. by rewrite decide_True. }
  split; [done|]. unfold scan_catalog. by rewrite Hpv.
Qed.

(** When the loop returns, the generator has run to its end: every
    frame was decoded and the handle is released. *)
Lemma parse_video_loop_finished (video : list color_frame) (i : nat)
    (acc rows : list ndarray) :
  (parse_video_loop (read_frames video) i acc).1 = Ok rows →
  (parse_video_loop (read_frames video) i acc).2
  = {| cap := {| stream := []; opened := false |}; running := false |}.
Proof.
  revert i acc. induction video as [|frame rest IH]; intros i acc.
  - by rewrite parse_video_loop_eq, read_frames_next_nil.
  - rewrite parse_video_loop_eq, read_frames_next_cons.
    destruct (cvtColor frame) as [gray|e]; [|done].
    destruct (bool_decide (i mod 3 ≠ 0)%nat); [apply IH|].
    destruct (parse_frame (slice2 150 630 635 1050 gray)); [apply IH|done].
Qed.

(** When [parse_video] returns, the stream is exhausted, the handle is
    released and the generator cannot be resumed. *)
Theorem parse_video_releases (video : list color_frame)
    (rows : list ndarray) :
  parse_video video = Ok rows →
  stream (cap (parse_video_run video).2) = [] ∧
  opened (cap (parse_video_run video).2) = false ∧
  (read_frames_next (parse_video_run video).2).1 = StopIteration.
Proof.
  unfold parse_video, parse_video_run. intros Hrun.
  by rewrite (parse_video_loop_finished _ _ _ _ Hrun).
Qed.

(** Every row image of the batch is 31 to 49 pixels high and at most 415
    pixels wide. *)
Theorem parse_video_row_shape (video : list color_frame)
    (rows : list ndarray) :
  parse_video video = Ok rows →
  Forall (λ r, (31 ≤ nrows r ≤ 49)%nat ∧ (ncols r ≤ 415)%nat) rows.
Proof.
  intros (grays & rowss & _ & Hr & ->)%parse_video_loop_rows.
  apply Forall_concat.
  induction Hr as [|gray rs grays' rowss' Hp _ IH]; constructor; [|done].
  apply parse_frame_rows_shape in Hp.
  eapply Forall_impl; [exact Hp|]. intros r [Hw Hh]. simpl in *.
  split; [done|]. rewrite Hw.
  by destruct (roi_shape gray) as (_ & ? & _).
Qed.

Lemma length_join_rows (imgs : list ndarray) :
  length (mjoin (rows <$> imgs)) = total_rows imgs.
Proof.
  unfold total_rows. induction imgs as [|a imgs IH]; [done|].
  rewrite !fmap_cons. simpl. by rewrite length_app, IH.
Qed.

(** When all the grayscale frames have one width, the row images of a
    batch that is not empty stack into one image, as high as the rows
    together: the widths never disagree. *)
Theorem parse_video_batch_stacks (video : list color_frame)
    (grays rows : list ndarray) (w : nat) :
  Forall2 (λ frame gray, cvtColor frame = Ok gray) video grays →
  Forall (λ gray, ncols gray = w) grays →
  parse_video video = Ok rows → rows ≠ [] →
  ∃ img, vconcat rows = Ok img ∧
         ncols img = Py.slice_len 635 1050 w ∧
         nrows img = total_rows rows.
Proof.
  intros Hgrays Hw (grays' & rowss & Hg' & Hr & ->)%parse_video_loop_rows Hne.
  rewrite app_nil_l in Hne |- *.
  assert (grays' = grays) as ->.
  { clear Hr Hw. revert grays' Hg'.
    induction Hgrays as [|f g video grays Hfg _ IH]; intros grays' Hg'.
    - by apply Forall2_nil_inv_l in Hg'.
    - apply Forall2_cons_inv_l in Hg' as (g' & grays'' & Hfg' & Hg' & ->).
      rewrite Hfg in Hfg'. injection Hfg' as <-. f_equal. by apply IH. }
  assert (Hall : Forall (λ r, ncols r = Py.slice_len 635 1050 w)
                        (concat rowss)).
  { apply Forall_concat.
    assert (Hsub : Forall (λ gray, ncols gray = w) (sampled_from 0 grays)).
    { unfold sampled_from. apply Forall_fmap, Forall_forall.
      intros [j g] [_ Hin]%list_elem_of_filter.
      apply elem_of_lookup_imap in Hin as (k & g' & [= -> ->] & Hk).
      rewrite Forall_forall in Hw. simpl. by eapply Hw, list_elem_of_lookup_2. }
    clear Hne. induction Hr as [|gray rs grays' rowss' Hp _ IH];
      constructor.
    - apply Forall_cons in Hsub as [Hg _].
      apply parse_frame_rows_shape in Hp.
      eapply Forall_impl; [exact Hp|]. intros r [Hr _]. simpl in *.
      by rewrite Hr, Hg.
    - apply IH. by apply Forall_cons in Hsub as [_ ?]. }
  unfold vconcat. destruct (concat rowss) as [|img imgs] eqn:Hrows; [done|].
  apply Forall_cons in Hall as [Himg Himgs].
  assert (Hfb : forallb (λ a, bool_decide (ncols a = ncols img)) (img :: imgs)
                = true).
  { apply forallb_forall. intros a Ha%list_elem_of_In.
    apply bool_decide_eq_true.
    apply elem_of_cons in Ha as [->|Ha]; [done|].
    rewrite Forall_forall in Himgs. by rewrite (Himgs a Ha), Himg. }
  cbv beta iota. rewrite Hfb. eexists. split; [reflexivity|]. cbn [ncols rows].
  split; [done|]. unfold nrows at 1. cbn [rows]. apply length_join_rows.
Qed.

(** The loop started at decode index [i] does not look at the frames
    it skips. *)
Lemma parse_video_loop_skipped (video video' : list color_frame) (i : nat)
    (acc : list ndarray) :
  length video = length video' →
  (∀ (j : nat) f f', video !! j = Some f → video' !! j = Some f' →
     (((i + j) mod 3 = 0)%nat → f = f') ∧
     (((i + j) mod 3 ≠ 0)%nat →
        (∃ g, cvtColor f = Ok g) ∧ (∃ g', cvtColor f' = Ok g'))) →
  (parse_video_loop (read_frames video) i acc).1
  = (parse_video_loop (read_frames video') i acc).1.
Proof.
  revert video' i acc.
  induction video as [|f rest IH]; intros [|f' rest'] i acc Hlen Hsame;
    try done.
  rewrite !parse_video_loop_eq, !read_frames_next_cons.
  destruct (Hsame 0%nat f f' eq_refl eq_refl) as [Heq Hne].
  rewrite Nat.add_0_r in Heq, Hne.
  assert (Hrest : ∀ (j : nat) g g', rest !! j = Some g → rest' !! j = Some g' →
            (((S i + j) mod 3 = 0)%nat → g = g') ∧
            (((S i + j) mod 3 ≠ 0)%nat →
               (∃ x, cvtColor g = Ok x) ∧ (∃ x', cvtColor g' = Ok x'))).
  { intros j g g' Hg Hg'.
    replace (S i + j)%nat with (i + S j)%nat by lia. by apply Hsame. }
  injection Hlen as Hlen.
  destruct (decide (i mod 3 = 0)%nat) as [Hi|Hi].
  - rewrite <- (Heq Hi). destruct (cvtColor f) as [gray|e]; [|done].
    rewrite bool_decide_eq_false_2 by (intros Hm; by apply Hm).
    destruct (parse_frame (slice2 150 630 635 1050 gray)); [|done].
    by apply IH.
  - destruct (Hne Hi) as [[g ->] [g' ->]].
    rewrite bool_decide_eq_true_2 by done. by apply IH.
Qed.

(** Only every third frame matters: two recordings that agree on the
    frames whose decode index is a multiple of 3, and whose other frames
    all decode, give the same outcome. *)
Theorem parse_video_skipped_frames (video video' : list color_frame) :
  length video = length video' →
  (∀ (j : nat) f f', video !! j = Some f → video' !! j = Some f' →
     ((j mod 3 = 0)%nat → f = f') ∧
     ((j mod 3 ≠ 0)%nat →
        (∃ g, cvtColor f = Ok g) ∧ (∃ g', cvtColor f' = Ok g'))) →
  parse_video video = parse_video video'.
Proof. intros Hlen Hsame. by apply parse_video_loop_skipped. Qed.

End sampler_more.

Lemma scan_catalog_narrow_video_witness :
  let libs := stub_libraries EmptyString in
  cvtColor qvga_frame = Ok qvga_frame ∧ (ncols qvga_frame ≤ 635)%nat ∧
  parse_video [qvga_frame; sample_frame] = Raise IndexError ∧
  scan_catalog [qvga_frame; sample_frame] sample_vocabulary
  = Raise IndexError.
Proof.
  intros libs.
  assert (Hw : (ncols qvga_frame ≤ 635)%nat) by (cbn [ncols qvga_frame]; lia).
  split; [reflexivity|]. split; [exact Hw|].
  exact (scan_catalog_narrow_video (libs := libs) qvga_frame [sample_frame]
           qvga_frame sample_vocabulary eq_refl Hw).
Defined.

Lemma parse_video_releases_witness :
  let libs := stub_libraries EmptyString in
  let video := [sample_frame; qvga_frame] in
  parse_video video = Ok [column_frame (replicate 40 255)] ∧
  stream (cap (parse_video_run video).2) = [] ∧
  opened (cap (parse_video_run video).2) = false ∧
  (read_frames_next (parse_video_run video).2).1 = StopIteration.
Proof.
  intros libs video.
  assert (Hrun : parse_video video = Ok [column_frame (replicate 40 255)])
    by (vm_compute; reflexivity).
  split; [exact Hrun|]. exact (parse_video_releases video _ Hrun).
Defined.

Lemma parse_video_row_shape_witness :
  let libs := stub_libraries EmptyString in
  let video := [sample_frame; qvga_frame] in
  parse_video video = Ok [column_frame (replicate 40 255)] ∧
  Forall (λ r, (31 ≤ nrows r ≤ 49)%nat ∧ (ncols r ≤ 415)%nat)
         [column_frame (replicate 40 255%Z)].
Proof.
  intros libs video.
  assert (Hrun : parse_video video = Ok [column_frame (replicate 40 255)])
    by (vm_compute; reflexivity).
  split; [exact Hrun|]. exact (parse_video_row_shape video _ Hrun).
Defined.

Lemma parse_video_batch_stacks_witness :
  let libs := stub_libraries EmptyString in
  let video := [sample_frame; sample_frame; sample_frame; sample_frame] in
  let rows := [column_frame (replicate 40 255);
               column_frame (replicate 40 255)] in
  parse_video video = Ok rows ∧
  ∃ img, vconcat rows = Ok img ∧
         ncols img = Py.slice_len 635 1050 636 ∧
         nrows img = total_rows rows.
Proof.
  intros libs video rows.
  assert (Hrun : parse_video video = Ok rows) by (vm_compute; reflexivity).
  split; [exact Hrun|].
  apply (parse_video_batch_stacks (libs := libs) video video rows 636).
  - by repeat constructor.
  - by repeat constructor.
  - exact Hrun.
  - discriminate.
Defined.

Lemma parse_video_skipped_frames_witness :
  let libs := stub_libraries EmptyString in
  parse_video [sample_frame; qvga_frame] = parse_video [sample_frame; full_frame].
Proof.
  intros libs.
  apply (parse_video_skipped_frames (libs := libs)); [reflexivity|].
  intros [|[|j]] f f'; simpl; try done.
  - intros [= <-] [= <-]. split; [done|]. intros Hm. by exfalso; apply Hm.
  - intros [= <-] [= <-]. split; [intros Hm; discriminate Hm|].
    intros _. split; eexists; reflexivity.
Defined.

(** ** Text Extractor: the candidate names are normalised *)



















Section text_extractor.
Context {libs : Libraries}.


End text_extractor.


(** ** Matcher: idempotence, size, and the log *)

Section matcher_more.
Context {libs : Libraries}.
Import Difflib.

Lemma match_items_single_exact (c : string) (item_db : gset string) :
  c ∈ item_db → match_items [c] item_db = {[ c ]}.
Proof.
  intros Hc. unfold match_items, match_items_log, match_items_step. simpl.
  rewrite decide_True by done. simpl. set_solver.
Qed.

(** Matching the Matcher's own result changes nothing. *)
Theorem match_items_idempotent (names : list string) (item_db : gset string) :
  match_items (elements (match_items names item_db)) item_db
  = match_items names item_db.
Proof.
  rewrite (match_items_union (elements _)). apply set_eq. intros x.
  rewrite elem_of_union_list. split.
  - intros (X & HX & Hx).
    apply list_elem_of_fmap in HX as (c & -> & Hc%elem_of_elements).
    rewrite match_items_single_exact in Hx
      by (by apply (match_items_subseteq names)).
    by apply elem_of_singleton in Hx as ->.
  - intros Hx. exists {[ x ]}. split; [|by apply elem_of_singleton].
    apply list_elem_of_fmap. exists x. split; [|by apply elem_of_elements].
    symmetry. apply match_items_single_exact.
    by apply (match_items_subseteq names).
Qed.

Lemma match_items_step_size (item_db : gset string)
    (st : gset string * list log_record) (item : string) :
  (size (match_items_step item_db st item).1 ≤ S (size st.1))%nat.
Proof.
  destruct st as [matched log]. unfold match_items_step.
  assert (Hadd : ∀ m : string, (size (matched ∪ {[ m ]}) ≤ S (size matched))%nat).
  { intros m. rewrite size_union_alt.
    pose proof (subseteq_size ({[ m ]} ∖ matched) {[ m ]} ltac:(set_solver)).
    rewrite size_singleton in *. lia. }
  destruct (decide (item ∈ item_db)); simpl; [apply Hadd|].
  destruct (get_close_matches item (elements item_db) cutoff); simpl;
    [lia|apply Hadd].
Qed.

(** Each candidate brings at most one name into the result. *)
Theorem match_items_size (names : list string) (item_db : gset string) :
  (size (match_items names item_db) ≤ length names)%nat.
Proof.
  unfold match_items, match_items_log.
  cut (∀ st, (size (foldl (match_items_step item_db) st names).1
              ≤ size st.1 + length names)%nat).
  { intros Hcut. specialize (Hcut (∅, [])). cbn [fst] in Hcut.
    by rewrite size_empty in Hcut. }
  induction names as [|c names IH]; intros st; simpl; [lia|].
  specialize (IH (match_items_step item_db st c)).
  pose proof (match_items_step_size item_db st c). lia.
Qed.

Lemma match_items_step_log (item_db : gset string)
    (st : gset string * list log_record) (item : string) :
  (match_items_step item_db st item).2
  = st.2 ++ (match_items_step item_db (∅, []) item).2.
Proof.
  destruct st as [matched log]. unfold match_items_step.
  destruct (decide (item ∈ item_db)); simpl; [by rewrite app_nil_r|].
  by destruct (get_close_matches item (elements item_db) cutoff).
Qed.

Lemma match_items_log_fold (item_db : gset string) (names : list string)
    (st : gset string * list log_record) :
  (foldl (match_items_step item_db) st names).2
  = st.2 ++ mjoin ((λ c, (match_items_step item_db (∅, []) c).2) <$> names).
Proof.
  revert st. induction names as [|c names IH]; intros st.
  - simpl. by rewrite app_nil_r.
  - rewrite match_items_log_cons, IH, match_items_step_log, fmap_cons.
    simpl. by rewrite app_assoc.
Qed.

Lemma match_items_step_items (item_db : gset string) (c : string) :
  log_item <$> (match_items_step item_db (∅, []) c).2
  = if decide (c ∉ item_db) then [c] else [].
Proof.
  unfold match_items_step.
  destruct (decide (c ∈ item_db)) as [Hc|Hc].
  - by rewrite decide_False by (intros Hn; by apply Hn).
  - rewrite decide_True by done.
    by destruct (get_close_matches c (elements item_db) cutoff).
Qed.

(** The log holds one record for each candidate outside the vocabulary,
    in the order of the candidates, and none for an exact hit. *)
Theorem match_items_log_items (names : list string) (item_db : gset string) :
  log_item <$> (match_items_log names item_db).2
  = filter (λ c, c ∉ item_db) names.
Proof.
  unfold match_items_log. rewrite match_items_log_fold.
  cbn [snd]. rewrite app_nil_l.
  induction names as [|c names IH]; [done|].
  change (log_item <$> ((match_items_step item_db (∅, []) c).2
                        ++ mjoin ((λ c, (match_items_step item_db (∅, []) c).2)
                                    <$> names))
          = filter (λ c, c ∉ item_db) (c :: names)).
  rewrite fmap_app, IH, match_items_step_items, filter_cons.
  by destruct (decide (c ∉ item_db)).
Qed.

(** With an empty vocabulary every candidate is dropped with a
    warning. *)
Theorem match_items_empty_vocabulary (names : list string) :
  match_items_log names ∅ = (∅, Warning <$> names).
Proof.
  unfold match_items_log.
  cut (∀ log, foldl (match_items_step ∅) (∅, log) names
              = (∅, log ++ (Warning <$> names))).
  { intros Hcut. apply Hcut. }
  induction names as [|c names IH]; intros log; simpl.
  - by rewrite app_nil_r.
  - rewrite decide_False by set_solver. rewrite elements_empty. simpl.
    rewrite IH. by rewrite <- app_assoc.
Qed.

Lemma match_items_step_justified (item_db : gset string) (c : string)
    (r : log_record) :
  r ∈ (match_items_step item_db (∅, []) c).2 → record_justified item_db r.
Proof.
  unfold match_items_step.
  destruct (decide (c ∈ item_db)) as [Hc|Hc]; simpl;
    [by intros ?%elem_of_nil|].
  destruct (get_close_matches c (elements item_db) cutoff) as [|m ms] eqn:Hm;
    simpl; intros ->%list_elem_of_singleton; simpl.
  - rewrite get_close_matches_nil in Hm. split; [done|].
    intros x Hx. by apply Hm, elem_of_elements.
  - apply get_close_matches_cons in Hm as (_ & Hin & Hcut & Hmax).
    apply elem_of_elements in Hin. split; [done|]. split; [done|].
    split; [done|]. intros x Hx%elem_of_elements Hxc.
    destruct (tuple_le_inv _ _ (Hmax x Hx Hxc)) as [Hlt|[Heq Hs]];
      simpl in *; [by left|].
    right. split; [done|].
    unfold PyStr.le. by rewrite string_leb_ltb, Hs.
Qed.

(** Every record of the log is justified: a warning only when no entry
    reaches 0.8, a match only with an entry of highest score, the
    greatest as a string among those of that score. *)
Theorem match_items_log_justified (names : list string)
    (item_db : gset string) (r : log_record) :
  r ∈ (match_items_log names item_db).2 →
  log_item r ∈ names ∧ record_justified item_db r.
Proof.
  unfold match_items_log. rewrite match_items_log_fold.
  cbn [snd]. rewrite app_nil_l.
  intros (l & Hr & Hl)%list_elem_of_join.
  apply list_elem_of_fmap in Hl as (c & -> & Hc).
  split; [|by apply (match_items_step_justified item_db c)].
  assert (Hi : log_item r ∈ log_item <$> (match_items_step item_db (∅, []) c).2)
    by (by apply list_elem_of_fmap_2).
  rewrite match_items_step_items in Hi.
  destruct (decide (c ∉ item_db)); [|by apply elem_of_nil in Hi].
  by apply list_elem_of_singleton in Hi as ->.
Qed.

End matcher_more.

Lemma match_items_log_justified_witness :
  let libs := stub_libraries EmptyString in
  let names := ["lron sw0rd"; "xyzzy"]%string in
  let item_db : gset string := list_to_set sample_vocabulary in
  let r := Info "lron sw0rd" "iron sword" in
  r ∈ (match_items_log names item_db).2 ∧
  log_item r ∈ names ∧ record_justified item_db r.
Proof.
  intros libs names item_db r.
  assert (Hr : r ∈ (match_items_log names item_db).2).
  { replace (match_items_log names item_db).2
      with [Info "lron sw0rd" "iron sword"; Warning "xyzzy"]
      by (vm_compute; reflexivity).
    left. }
  split; [exact Hr|].
  exact (match_items_log_justified (libs := libs) names item_db r Hr).
Defined.

(** ** Command line: what [main] prints *)

Lemma split_without_sep (sep : ascii) (s : string) :
  sep ∉ list_ascii_of_string s → PyStr.split sep s = [s].
Proof.
  induction s as [|c s IH]; [done|]. simpl. intros Hs.
  apply not_elem_of_cons in Hs as [Hc Hs].
  rewrite decide_False by congruence. by rewrite IH.
Qed.

Lemma split_append_sep (sep : ascii) (s t : string) :
  sep ∉ list_ascii_of_string s →
  PyStr.split sep (s +:+ String sep t) = s :: PyStr.split sep t.
Proof.
  induction s as [|c s IH]; simpl.
  - intros _. by rewrite decide_True.
  - intros Hs. apply not_elem_of_cons in Hs as [Hc Hs].
    rewrite decide_False by congruence. by rewrite IH.
Qed.

Lemma string_app_assoc (s t u : string) :
  ((s +:+ t) +:+ u = s +:+ (t +:+ u))%string.
Proof.
  induction s as [|c s IH]; [done|].
  change (String c ((s +:+ t) +:+ u) = String c (s +:+ (t +:+ u)))%string.
  by f_equal.
Qed.

(** Splitting the printed text on line breaks gives back the items,
    followed by the empty string after the last line break. *)
Lemma split_join_newline (l : list string) :
  l ≠ [] → Forall (λ s, ¬ has_newline s) l →
  PyStr.split PyStr.nl (join newline l +:+ newline) = l ++ [EmptyString].
Proof.
  intros Hne Hl. induction l as [|s l IH]; [done|].
  apply Forall_cons in Hl as [Hs Hl].
  destruct l as [|s' l].
  - simpl. unfold newline. by rewrite split_append_sep.
  - change (join newline (s :: s' :: l))
      with (s +:+ (newline +:+ join newline (s' :: l)))%string.
    rewrite !string_app_assoc.
    change (newline +:+ (join newline (s' :: l) +:+ newline))%string
      with (String PyStr.nl (join newline (s' :: l) +:+ newline)).
    rewrite split_append_sep by done. by rewrite IH.
Qed.

Section command_line_more.
Context {libs : Libraries}.

Lemma argv_video_file (argv : list string) :
  (if bool_decide (1 < length argv)%nat then argv !!! 1%nat
   else "catalog3.mp4"%string)
  = default "catalog3.mp4"%string (argv !! 1%nat).
Proof.
  destruct (decide (1 < length argv)%nat) as [Hlen|Hlen].
  - rewrite bool_decide_eq_true_2 by done.
    destruct (lookup_lt_is_Some_2 argv 1 Hlen) as [f Hf].
    by rewrite (list_lookup_total_correct _ _ _ Hf), Hf.
  - rewrite bool_decide_eq_false_2 by done.
    by rewrite lookup_ge_None_2 by lia.
Qed.

(** [main] scans the file named by the first argument, or
    [catalog3.mp4] when there is none, and ignores further arguments.
    When no vocabulary entry holds a line break, the lines of the text
    it prints are exactly the items found, in order; when nothing is
    found it prints one empty line. *)
Theorem main_prints_items (files : string → list color_frame)
    (items_json argv : list string) (text : string) :
  Forall (λ s, ¬ has_newline s) items_json →
  main files items_json argv = Ok text →
  ∃ items,
    scan_catalog (files (default "catalog3.mp4"%string (argv !! 1%nat)))
                 items_json = Ok items ∧
    (items = [] → text = newline) ∧
    (items ≠ [] → PyStr.split PyStr.nl text = items ++ [EmptyString]).
Proof.
  intros Hjson. unfold main. rewrite argv_video_file.
  destruct (scan_catalog _ items_json) as [items|] eqn:Hscan; [|done].
  simpl. intros [= <-]. exists items. split; [done|]. split.
  - by intros ->.
  - intros Hne. apply split_join_newline; [done|].
    apply scan_catalog_Ok in Hscan as (names & ->).
    apply Forall_forall. intros x Hx.
    unfold PyStr.sorted in Hx. rewrite merge_sort_Permutation in Hx.
    apply elem_of_elements, match_items_subseteq in Hx.
    apply elem_of_list_to_set in Hx.
    rewrite Forall_forall in Hjson. by apply Hjson.
Qed.

End command_line_more.

Lemma main_prints_items_witness :
  let libs := stub_libraries sample_text in
  let files := λ _ : string, [sample_frame] in
  let text := ("cracked shield" +:+ newline +:+ "iron sword" +:+ newline)%string in
  Forall (λ s, ¬ has_newline s) sample_vocabulary ∧
  main files sample_vocabulary ["scanner.py"%string] = Ok text ∧
  ∃ items,
    scan_catalog (files "catalog3.mp4"%string) sample_vocabulary = Ok items ∧
    (items = [] → text = newline) ∧
    (items ≠ [] → PyStr.split PyStr.nl text = items ++ [EmptyString]).
Proof.
  intros libs files text.
  assert (Hvoc : Forall (λ s, ¬ has_newline s) sample_vocabulary).
  { repeat constructor; by_evaluation. }
  assert (Hmain : main files sample_vocabulary ["scanner.py"%string] = Ok text)
    by (vm_compute; reflexivity).
  split; [exact Hvoc|]. split; [exact Hmain|].
  exact (main_prints_items (libs := libs) files sample_vocabulary
           ["scanner.py"%string] text Hvoc Hmain).
Defined.

(** ** Frame Sampler: the handle after an exception *)

Section sampler_handle.
Context {libs : Libraries}.

(** Whenever [parse_video] raises, whatever the exception and the frame
    it comes from, the statement [cap.release()] has not run: the handle
    is still open. *)
Theorem parse_video_raise_keeps_handle (video : list color_frame) (e : exn) :
  parse_video video = Raise e →
  opened (cap (parse_video_run video).2) = true.
Proof.
  unfold parse_video, parse_video_run. intros Hrun.
  by rewrite parse_video_loop_handle, Hrun.
Qed.

End sampler_handle.

Lemma parse_video_raise_keeps_handle_witness :
  let libs := stub_libraries EmptyString in
  let video := [sample_frame; sample_frame; sample_frame; qvga_frame] in
  parse_video video = Raise IndexError ∧
  opened (cap (parse_video_run video).2) = true.
Proof.
  intros libs video.
  assert (Hrun : parse_video video = Raise IndexError)
    by (vm_compute; reflexivity).
  split; [exact Hrun|].
  exact (parse_video_raise_keeps_handle (libs := libs) video _ Hrun).
Defined.

Lemma get_close_matches_ext_witness :
  let libs := stub_libraries EmptyString in
  let l1 := ["iron sword"; "cracked shield"]%string in
  let l2 := ["cracked shield"; "iron sword"; "cracked shield"]%string in
  (∀ x, x ∈ l1 ↔ x ∈ l2) ∧
  Difflib.get_close_matches "lron sw0rd" l1 (8 # 10)
  = Difflib.get_close_matches "lron sw0rd" l2 (8 # 10).
Proof.
  intros libs l1 l2.
  assert (Hsame : ∀ x, x ∈ l1 ↔ x ∈ l2).
  { intros x. unfold l1, l2. rewrite !elem_of_cons, !elem_of_nil. tauto. }
  split; [exact Hsame|].
  exact (get_close_matches_ext (libs := libs) _ l1 l2 _ Hsame).
Defined.
